(** * Quorum client of the caching proxy (package [memcache], client.go)

    A shallow embedding of the N/W/R quorum client.  The client itself
    holds only its three tunables; everything it does goes through two
    collaborators, the scheduler (ranking provider) and the backend
    hosts, whose implementations are not part of client.go.  They are
    taken here as interfaces over an abstract world state, and every
    call the client makes on them is recorded in the order it happens,
    so that statements about contact order and feedback can be made. *)

From stdpp Require Import gmap strings list fin_maps.
From Stdlib Require Import ZArith Strings.Byte.

Open Scope Z_scope.

Module memcache.

(** ** Values the client passes around *)

(** The [adjust] argument of [Feedback] is a float64.  The client only
    ever passes the constants -10, -2, -1 and the latency score
    [-math.Sqrt(t)*t] with [t] the elapsed seconds; the latter is kept
    symbolic, indexed by the elapsed nanoseconds it is computed from. *)
Inductive Score : Type :=
| Fixed (z : Z)
| Latency (elapsed_ns : Z).

(** What a function call produced: a normal return, or a run-time panic
    (index or slice bound out of range). *)
Inductive Outcome (A : Type) : Type :=
| Returned (a : A)
| Panicked.
Arguments Returned {A} a.
Arguments Panicked {A}.

(** Exit of one iteration of a [for ... range] body. *)
Inductive Ctl (S R : Type) : Type :=
| Next (s : S)        (* fall off the end of the body, or [continue] *)
| Break (s : S)       (* [break] *)
| Return (r : R).     (* [return] from inside the loop *)
Arguments Next {S R} s.
Arguments Break {S R} s.
Arguments Return {S R} r.

Section Client.

(** [Item] is the payload behind [*Item], [Error] the values of the
    [error] interface, [Host] the target of [*Host], with its [Addr]
    field. *)
Context {Item Error Host World : Type}.
Context (Addr : Host → string).
Context (errors_New : string → Error).

(** A [*Item] and an [error] may be nil, which is [None]. *)
Local Abbreviation ItemPtr := (option Item).
Local Abbreviation error := (option Error).

(** The calls of the client on its collaborators, with what came back. *)
Inductive Event : Type :=
| CallGet (h : Host) (key : string) (r : ItemPtr) (e : error)
| CallGetMulti (h : Host) (keys : list string) (r : gmap string ItemPtr) (e : error)
| CallSet (h : Host) (key : string) (item : ItemPtr) (noreply : bool) (ok : bool) (e : error)
| CallAppend (h : Host) (key : string) (value : list byte) (ok : bool) (e : error)
| CallIncr (h : Host) (key : string) (value : Z) (r : Z) (e : error)
| CallDelete (h : Host) (key : string) (ok : bool) (e : error)
| CallFeedback (h : Host) (key : string) (adjust : Score) (fault : bool).

(** The scheduler interface, as the client uses it. *)
Class Scheduler : Type := {
  Feedback : Host → string → Score → bool → World → World;
  GetHostsByKey : string → World → list Host * World;
  DivideKeysByBucket : list string → World → list (list string) * World
}.

(** The per-key operations of a backend host, and the wall clock. *)
Class Backend : Type := {
  host_Get : Host → string → World → (ItemPtr * error) * World;
  host_GetMulti : Host → list string → World → (gmap string ItemPtr * error) * World;
  host_Set : Host → string → ItemPtr → bool → World → (bool * error) * World;
  host_Append : Host → string → list byte → World → (bool * error) * World;
  host_Incr : Host → string → Z → World → (Z * error) * World;
  host_Delete : Host → string → World → (bool * error) * World;
  time_Now : World → Z                        (* nanoseconds *)
}.

Context {sch : Scheduler} {be : Backend}.

(** ** The monad: world state, recorded calls, panics *)

Definition M (A : Type) : Type := World → Outcome A * World * list Event.

Definition ret {A} (a : A) : M A := λ w, (Returned a, w, []).

Definition bind {A B} (m : M A) (k : A → M B) : M B := λ w,
  match m w with
  | (Returned a, w1, t1) =>
      match k a w1 with (o, w2, t2) => (o, w2, t1 ++ t2) end
  | (Panicked, w1, t1) => (Panicked, w1, t1)
  end.

Definition panic {A} : M A := λ w, (Panicked, w, []).

Local Instance M_ret : MRet M := @ret.
Local Instance M_bind : MBind M := λ A B k m, bind m k.

Definition outcome {A} (x : Outcome A * World * list Event) : Outcome A := x.1.1.
Definition calls {A} (x : Outcome A * World * list Event) : list Event := x.2.

(** Collaborator calls, lifted. *)
Definition now : M Z := λ w, (Returned (time_Now w), w, []).

Definition hostsByKey (key : string) : M (list Host) := λ w,
  match GetHostsByKey key w with (hosts, w') => (Returned hosts, w', []) end.

Definition feedback (h : Host) (key : string) (adjust : Score) (fault : bool) : M unit :=
  λ w, (Returned tt, Feedback h key adjust fault w, [CallFeedback h key adjust fault]).

Definition hostGet (h : Host) (key : string) : M (ItemPtr * error) := λ w,
  match host_Get h key w with
  | ((r, e), w') => (Returned (r, e), w', [CallGet h key r e])
  end.

Definition hostGetMulti (h : Host) (keys : list string) : M (gmap string ItemPtr * error) :=
  λ w,
  match host_GetMulti h keys w with
  | ((r, e), w') => (Returned (r, e), w', [CallGetMulti h keys r e])
  end.

Definition hostSet (h : Host) (key : string) (item : ItemPtr) (noreply : bool)
  : M (bool * error) := λ w,
  match host_Set h key item noreply w with
  | ((ok, e), w') => (Returned (ok, e), w', [CallSet h key item noreply ok e])
  end.

Definition hostAppend (h : Host) (key : string) (value : list byte) : M (bool * error) :=
  λ w,
  match host_Append h key value w with
  | ((ok, e), w') => (Returned (ok, e), w', [CallAppend h key value ok e])
  end.

Definition hostIncr (h : Host) (key : string) (value : Z) : M (Z * error) := λ w,
  match host_Incr h key value w with
  | ((r, e), w') => (Returned (r, e), w', [CallIncr h key value r e])
  end.

Definition hostDelete (h : Host) (key : string) : M (bool * error) := λ w,
  match host_Delete h key w with
  | ((ok, e), w') => (Returned (ok, e), w', [CallDelete h key ok e])
  end.

(** [for i, x := range xs { body }], started at index [i].  The result is
    [inl s] when the loop ended (exhausted or by [break]) in state [s],
    and [inr r] when the body returned [r]. *)
Fixpoint for_range {X S R} (body : nat → X → S → M (Ctl S R))
    (i : nat) (xs : list X) (s : S) : M (S + R) :=
  match xs with
  | [] => ret (inl s)
  | x :: xs' =>
      c ← body i x s;
      match c with
      | Next s' => for_range body (Datatypes.S i) xs' s'
      | Break s' => ret (inl s')
      | Return r => ret (inr r)
      end
  end.

(** The loop variables at the end of a loop whose body has no [return]. *)
Definition ended {S} (res : S + Empty_set) : S :=
  match res with
  | inl s => s
  | inr r => match r with end
  end.

(** [xs[:n]]: panics when [n] exceeds the capacity; a slice handed out by
    the scheduler is taken to have no spare capacity. *)
Definition slice_to {X} (xs : list X) (n : nat) : M (list X) :=
  if decide (n ≤ length xs)%nat then ret (take n xs) else panic.

(** [xs[0]] *)
Definition index0 {X} (xs : list X) : M X :=
  match xs with
  | x :: _ => ret x
  | [] => panic
  end.

(** [for j := 0; j < i; j++ { Feedback(hosts[j], key, -1, false) }], over
    the hosts [hosts[0..i-1]] it visits. *)
Fixpoint feedback_skipped (key : string) (hs : list Host) : M unit :=
  match hs with
  | [] => ret tt
  | h :: hs' => _ ← feedback h key (Fixed (-1)) false; feedback_skipped key hs'
  end.

(** ** The client *)

Record Client : Type := NewClient { N : Z; W : Z; R : Z }.

(** *** Get *)

Local Abbreviation GetResult := (ItemPtr * list string * error)%type.

(** The variables live across iterations of the loop of [Get]: [cnt] and
    the named results [r], [targets], [err]. *)
Record GetVars : Type := mkGetVars {
  g_cnt : Z; g_r : ItemPtr; g_targets : list string; g_err : error
}.

Definition Get_body (c : Client) (key : string) (hosts : list Host)
    (i : nat) (host : Host) (v : GetVars) : M (Ctl GetVars GetResult) :=
  st ← now;
  '(r, err) ← hostGet host key;
  let check (cnt : Z) : M (Ctl GetVars GetResult) :=
    if decide (R c ≤ cnt ∧ N c ≤ Z.of_nat i + 1) then
      (* because hosts are sorted *)
      fail_hosts ← slice_to hosts 3;
      ret (Break (mkGetVars cnt r (g_targets v ++ map Addr fail_hosts) None))
    else ret (Next (mkGetVars cnt r (g_targets v) err)) in
  match err with
  | Some _ =>
      (_ ← feedback host key (Fixed (-10)) true;
       check (g_cnt v))
  | None =>
      let cnt := g_cnt v + 1 in
      match r with
      | Some _ =>
          (t ← now;
           _ ← feedback host key (Latency (t - st)) false;
           _ ← feedback_skipped key (take i hosts);
           (* got the right rval *)
           ret (Return (r, [Addr host], None)))
      | None => check cnt
      end
  end.

Definition Get (c : Client) (key : string) : M GetResult :=
  hosts ← hostsByKey key;
  res ← for_range (Get_body c key hosts) 0 hosts (mkGetVars 0 None [] None);
  match res with
  | inl v => ret (g_r v, g_targets v, g_err v)     (* here is a failure exit *)
  | inr r => ret r
  end.

(** *** getMulti *)

Local Abbreviation MultiResult := (gmap string ItemPtr * list string * error)%type.

(** Loop variables of [getMulti]: the shrinking [keys], the result map
    [rs], [targets], [err] and [suc]. *)
Record MultiVars : Type := mkMultiVars {
  m_keys : list string; m_rs : gmap string ItemPtr;
  m_targets : list string; m_err : error; m_suc : Z
}.

Definition getMulti_body (c : Client) (need : nat)
    (i : nat) (host : Host) (v : MultiVars) : M (Ctl MultiVars Empty_set) :=
  let keys := m_keys v in
  st ← now;
  '(r, er) ← hostGetMulti host keys;
  '(err, suc, targets) ←
    match er with
    | Some _ =>                                           (* failed *)
        (k0 ← index0 keys;
         _ ← feedback host k0 (Fixed (-10)) true;
         ret (er, m_suc v, m_targets v))
    | None => ret (m_err v, m_suc v + 1, m_targets v ++ [Addr host])
    end;
  t ← now;
  k0 ← index0 keys;
  _ ← feedback host k0 (Latency (t - st)) false;
  let rs := r ∪ m_rs v in                  (* for k, v := range r { rs[k] = v } *)
  if decide (size rs = need) then
    ret (Break (mkMultiVars keys rs targets err suc))
  else if decide (N c ≤ Z.of_nat i + 1 ∧ R c ≤ suc) then
    ret (Break (mkMultiVars keys rs [] None suc))
  else
    let new_keys := filter (λ k, rs !! k = None) keys in
    if decide (length new_keys = 0%nat) then
      ret (Break (mkMultiVars new_keys rs targets err suc))   (* repeated keys *)
    else ret (Next (mkMultiVars new_keys rs targets err suc)).

Definition getMulti (c : Client) (keys : list string) : M MultiResult :=
  let need := length keys in
  k0 ← index0 keys;
  hosts ← hostsByKey k0;
  res ← for_range (getMulti_body c need) 0 hosts (mkMultiVars keys ∅ [] None 0);
  let v := ended res in
  let err := if decide (0 < size (m_rs v))%nat then None else m_err v in
  ret (m_rs v, m_targets v, err).

(** *** GetMulti *)

(** One pass of the loop in a shard task, under the lock:
    [rs[k] = v; targets = append(targets, t...)]. *)
Definition merge_entry (t : list string) (k : string) (v : ItemPtr)
    (acc : MultiResult) : MultiResult :=
  match acc with (rs, targets, err) => (<[k := v]> rs, targets ++ t, err) end.

(** What a shard task does with the result [(r, t, e)] of its [getMulti]
    on the accumulators [rs], [targets], [err] of [GetMulti]. *)
Definition merge_shard (res : MultiResult) (acc : MultiResult) : MultiResult :=
  match res with
  | (r, t, Some e) => match acc with (rs, targets, _) => (rs, targets, Some e) end
  | (r, t, None) => map_fold (merge_entry t) acc r
  end.

(** [GetMulti], with the shard tasks run to completion one after the other
    in the order they are started; other interleavings of the tasks are
    not represented. *)
Definition GetMulti_body (c : Client) (_ : nat) (ks : list string) (acc : MultiResult)
  : M (Ctl MultiResult Empty_set) :=
  if decide (0 < length ks)%nat then
    res ← getMulti c ks;
    ret (Next (merge_shard res acc))
  else ret (Next acc).

Definition GetMulti (c : Client) (keys : list string) : M MultiResult := λ w,
  match DivideKeysByBucket keys w with
  | (gs, w') =>
      (res ← for_range (GetMulti_body c) 0 gs (∅, [], None);
       ret (ended res)) w'
  end.

(** *** Set, Append *)

Local Abbreviation WriteResult := (bool * list string * error)%type.

Record WriteVars : Type := mkWriteVars { w_suc : Z; w_targets : list string }.

Definition write_failed : error := Some (errors_New "write failed").

Definition Set_body (c : Client) (key : string) (item : ItemPtr) (noreply : bool)
    (i : nat) (host : Host) (v : WriteVars) : M (Ctl WriteVars Empty_set) :=
  '(ok, err) ← hostSet host key item noreply;
  v' ←
    match err, ok with
    | None, true => ret (mkWriteVars (w_suc v + 1) (w_targets v ++ [Addr host]))
    | _, _ => (_ ← feedback host key (Fixed (-2)) false; ret v)
    end;
  if decide (W c ≤ w_suc v' ∧ N c ≤ Z.of_nat i + 1) then
    (* at least try N backends, and succeed W backends *)
    ret (Break v')
  else ret (Next v').

Definition write_result (c : Client) (v : WriteVars) : M WriteResult :=
  if decide (w_suc v < W c) then ret (false, w_targets v, write_failed)
  else ret (true, w_targets v, None).

(** [Set] (the name is reserved in Rocq). *)
Definition Set_ (c : Client) (key : string) (item : ItemPtr) (noreply : bool)
  : M WriteResult :=
  hosts ← hostsByKey key;
  res ← for_range (Set_body c key item noreply) 0 hosts (mkWriteVars 0 []);
  write_result c (ended res).

Definition Append_body (c : Client) (key : string) (value : list byte)
    (i : nat) (host : Host) (v : WriteVars) : M (Ctl WriteVars Empty_set) :=
  '(ok, err) ← hostAppend host key value;
  let v' :=
    match err, ok with
    | None, true => mkWriteVars (w_suc v + 1) (w_targets v ++ [Addr host])
    | _, _ => v
    end in
  if decide (W c ≤ w_suc v' ∧ N c ≤ Z.of_nat i + 1) then
    (* at least try N backends, and succeed W backends *)
    ret (Break v')
  else ret (Next v').

Definition Append (c : Client) (key : string) (value : list byte) : M WriteResult :=
  hosts ← hostsByKey key;
  res ← for_range (Append_body c key value) 0 hosts (mkWriteVars 0 []);
  write_result c (ended res).

(** *** Incr *)

Local Abbreviation IncrResult := (Z * list string * error)%type.

Record IncrVars : Type := mkIncrVars {
  i_result : Z; i_targets : list string; i_err : error; i_suc : Z
}.

Definition Incr_body (c : Client) (key : string) (value : Z)
    (i : nat) (host : Host) (v : IncrVars) : M (Ctl IncrVars Empty_set) :=
  '(r, e) ← hostIncr host key value;
  match e with
  | Some _ =>
      (* err = e; continue *)
      ret (Next (mkIncrVars (i_result v) (i_targets v) e (i_suc v)))
  | None =>
      let suc := if decide (0 < r) then i_suc v + 1 else i_suc v in
      let targets := if decide (0 < r) then i_targets v ++ [Addr host] else i_targets v in
      let result := if decide (i_result v < r) then r else i_result v in
      let v' := mkIncrVars result targets (i_err v) suc in
      if decide (W c ≤ suc ∧ N c ≤ Z.of_nat i + 1) then
        (* at least try N backends, and succeed W backends *)
        ret (Break v')
      else ret (Next v')
  end.

Definition Incr (c : Client) (key : string) (value : Z) : M IncrResult :=
  hosts ← hostsByKey key;
  res ← for_range (Incr_body c key value) 0 hosts (mkIncrVars 0 [] None 0);
  let v := ended res in
  let err := if decide (0 < i_result v) then None else i_err v in
  ret (i_result v, i_targets v, err).

(** *** Delete *)

Local Abbreviation DeleteResult := (bool * list string * error)%type.

Record DeleteVars : Type := mkDeleteVars {
  d_suc : Z; d_err_count : Z; d_targets : list string; d_err : error
}.

Definition Delete_body (c : Client) (key : string)
    (_ : nat) (host : Host) (v : DeleteVars) : M (Ctl DeleteVars Empty_set) :=
  '(ok, er) ← hostDelete host key;
  let v' :=
    match er, ok with
    | Some _, _ =>            (* means in err occurs in the right bucket *)
        mkDeleteVars (d_suc v) (d_err_count v + 1) (d_targets v) er
    | None, true =>
        mkDeleteVars (d_suc v + 1) (d_err_count v) (d_targets v ++ [Addr host]) (d_err v)
    | None, false => v
    end in
  if decide (N c ≤ d_suc v') then ret (Break v') else ret (Next v').

Definition Delete (c : Client) (key : string) : M DeleteResult :=
  hosts ← hostsByKey key;
  res ← for_range (Delete_body c key) 0 hosts (mkDeleteVars 0 0 [] None);
  let v := ended res in
  if decide (0 < d_suc v ∨ d_err_count v < 2) then
    (* if success at least one, or not failed twice *)
    ret (true, d_targets v, None)
  else ret (false, d_targets v, d_err v).

(** *** Len *)

Definition Len (c : Client) : Z := 0.

(** ** What a run shows

    Observations on the recorded calls of a run, in which the properties
    of contact order, counters and feedback are phrased. *)

Definition is_feedback (e : Event) : bool :=
  match e with CallFeedback _ _ _ _ => true | _ => false end.

(** A backend's answer to one call: the host, what it returned, and the
    error it returned. *)
Local Abbreviation Reply A := (Host * A * option Error)%type.
Definition reply_host {A} (rep : Reply A) : Host := rep.1.1.
Definition reply_val {A} (rep : Reply A) : A := rep.1.2.
Definition reply_err {A} (rep : Reply A) : error := rep.2.

(** How many elements of [l] satisfy [P]. *)
Definition tally {A} (P : A → Prop) `{∀ x, Decision (P x)} (l : list A) : Z :=
  Z.of_nat (length (filter P l)).

(** The backend answered without a transport error. *)
Definition replied {A} (rep : Reply A) : Prop := reply_err rep = None.

Global Instance replied_dec {A} (rep : Reply A) : Decision (replied rep) :=
  decide (reply_err rep = None).

(** The backend returned an error. *)
Definition failed {A} (rep : Reply A) : Prop := reply_err rep ≠ None.

Global Instance failed_dec {A} (rep : Reply A) : Decision (failed rep) :=
  decide (reply_err rep ≠ None).

(** How many of the replies came without a transport error. *)
Definition answered {A} (reps : list (Reply A)) : Z := tally replied reps.

(** The error of the last reply that had one. *)
Definition last_error {A} (reps : list (Reply A)) : error :=
  last (omap reply_err reps).

(** **** Get *)

Definition get_replies (evs : list Event) : list (Reply ItemPtr) :=
  omap (λ e, match e with CallGet h _ r er => Some (h, r, er) | _ => None end) evs.

(** The read succeeded with a non-nil value. *)
Definition found (rep : Reply ItemPtr) : Prop :=
  is_Some (reply_val rep) ∧ reply_err rep = None.

(** The stop test of the miss branch, after the replies [reps]:
    [cnt >= c.R && i+1 >= c.N]. *)
Definition miss_quorum (c : Client) (reps : list (Reply ItemPtr)) : Prop :=
  R c ≤ answered reps ∧ N c ≤ Z.of_nat (length reps).

(** The calls recorded for a backend that did not serve the value. *)
Definition get_trace (key : string) (rep : Reply ItemPtr) : list Event :=
  CallGet (reply_host rep) key (reply_val rep) (reply_err rep) ::
  match reply_err rep with
  | Some _ => [CallFeedback (reply_host rep) key (Fixed (-10)) true]
  | None => []
  end.

(** The value and error of the last reply, as left in [r] and [err]. *)
Definition last_reply (reps : list (Reply ItemPtr)) : ItemPtr * error :=
  match last reps with
  | Some rep => (reply_val rep, reply_err rep)
  | None => (None, None)
  end.

(** ** Loop invariants

    [loop_post] is what the loop rule concludes about a [for ... range]
    over [xs]: [I done s evs] is the invariant after the elements [done]
    were visited, leaving the loop variables [s] and the recorded calls
    [evs]; [B], [Rt] and [P] describe a [break], a [return] and a panic in
    the iteration that visited the last element of [done]. *)
Definition loop_post {X S R'} (xs : list X)
    (I B : list X → S → list Event → Prop)
    (Rt : list X → R' → list Event → Prop) (P : list X → list Event → Prop)
    (evs0 : list Event) (x : Outcome (S + R') * World * list Event) : Prop :=
  match x with
  | (Returned (inl s'), _, e) =>
      I xs s' (evs0 ++ e) ∨ ∃ done, done `prefix_of` xs ∧ B done s' (evs0 ++ e)
  | (Returned (inr r), _, e) => ∃ done, done `prefix_of` xs ∧ Rt done r (evs0 ++ e)
  | (Panicked, _, e) => ∃ done, done `prefix_of` xs ∧ P done (evs0 ++ e)
  end.

(** The stop test [stop] did not hold after any earlier reply of the walk
    [reps]: the walk went on only while it failed. *)
Definition never_before {A} (stop : list A → Prop) (reps : list A) : Prop :=
  ∀ pre, pre `prefix_of` reps → pre ≠ [] → pre ≠ reps → ¬ stop pre.

(** **** Invariants of the loop of [Get] *)

Definition walked (c : Client) (key : string)
    (done : list Host) (evs : list Event) (reps : list (Reply ItemPtr)) : Prop :=
  evs = flat_map (get_trace key) reps ∧ map reply_host reps = done ∧
  Forall (λ rep, ¬ found rep) reps ∧ never_before (miss_quorum c) reps.

Definition Get_inv (c : Client) (key : string)
    (done : list Host) (v : GetVars) (evs : list Event) : Prop :=
  ∃ reps, walked c key done evs reps ∧ (reps ≠ [] → ¬ miss_quorum c reps) ∧
    g_cnt v = answered reps ∧ g_targets v = [] ∧
    (g_r v, g_err v) = last_reply reps.

Definition Get_brk (c : Client) (key : string) (hosts : list Host)
    (done : list Host) (v : GetVars) (evs : list Event) : Prop :=
  ∃ reps, walked c key done evs reps ∧ reps ≠ [] ∧ miss_quorum c reps ∧
    (3 ≤ length hosts)%nat ∧ g_targets v = map Addr (take 3 hosts) ∧
    g_r v = (last_reply reps).1 ∧ g_err v = None.

(** The flat [-1] feedback for the hosts [hs] ranked ahead of the serving
    one. *)
Definition skipped_trace (key : string) (hs : list Host) : list Event :=
  map (λ h', CallFeedback h' key (Fixed (-1)) false) hs.

(** The calls recorded when the backend [h] serves the value [val] after
    the replies [reps]. *)
Definition served_trace (key : string) (hosts : list Host)
    (reps : list (Reply ItemPtr)) (h : Host) (val : Item) (t : Z) : list Event :=
  flat_map (get_trace key) reps ++
  [CallGet h key (Some val) None; CallFeedback h key (Latency t) false] ++
  skipped_trace key (take (length reps) hosts).

Definition Get_ret (c : Client) (key : string) (hosts : list Host)
    (done : list Host) (res : GetResult) (evs : list Event) : Prop :=
  ∃ reps h val t,
    walked c key (map reply_host reps) (flat_map (get_trace key) reps) reps ∧
    (reps ≠ [] → ¬ miss_quorum c reps) ∧
    done = map reply_host reps ++ [h] ∧
    evs = served_trace key hosts reps h val t ∧
    res = (Some val, [Addr h], None).

Definition Get_pan (c : Client) (key : string) (hosts : list Host)
    (done : list Host) (evs : list Event) : Prop :=
  ∃ reps, walked c key done evs reps ∧ reps ≠ [] ∧ miss_quorum c reps ∧
    (length hosts < 3)%nat.

(** **** Walks of the write operations

    [stops_at stop n reps]: a walk over [n] ranked candidates that got the
    replies [reps] went on exactly as long as the test [stop] failed; it
    ended before the last candidate only because [stop] held. *)
Definition stops_at {A} (stop : list A → Prop) (n : nat) (reps : list A) : Prop :=
  never_before stop reps ∧ ((length reps < n)%nat → reps ≠ [] ∧ stop reps).

(** The backend acknowledged: [err == nil && ok]. *)
Definition acked (rep : Reply bool) : Prop :=
  reply_err rep = None ∧ reply_val rep = true.

Global Instance acked_dec (rep : Reply bool) : Decision (acked rep) :=
  decide (reply_err rep = None ∧ reply_val rep = true).

(** The addresses recorded as targets: those of the replies that counted
    as a success, in the order of contact. *)
Definition addresses {A} (P : Reply A → Prop) `{∀ x, Decision (P x)}
    (reps : list (Reply A)) : list string :=
  map (λ rep, Addr (reply_host rep)) (filter P reps).

(** The stop test of [Set] and [Append]: [suc >= c.W && (i+1) >= c.N]. *)
Definition write_quorum (c : Client) (reps : list (Reply bool)) : Prop :=
  W c ≤ tally acked reps ∧ N c ≤ Z.of_nat (length reps).

Definition set_replies (evs : list Event) : list (Reply bool) :=
  omap (λ e, match e with CallSet h _ _ _ ok er => Some (h, ok, er) | _ => None end) evs.

Definition append_replies (evs : list Event) : list (Reply bool) :=
  omap (λ e, match e with CallAppend h _ _ ok er => Some (h, ok, er) | _ => None end) evs.

(** The calls recorded by [Set] for one backend: the write, and a [-2]
    non-fault feedback unless the backend acknowledged. *)
Definition set_trace (key : string) (item : ItemPtr) (noreply : bool)
    (rep : Reply bool) : list Event :=
  CallSet (reply_host rep) key item noreply (reply_val rep) (reply_err rep) ::
  if decide (acked rep) then []
  else [CallFeedback (reply_host rep) key (Fixed (-2)) false].

(** The calls recorded by [Append] for one backend: the append only. *)
Definition append_trace (key : string) (value : list byte)
    (rep : Reply bool) : list Event :=
  [CallAppend (reply_host rep) key value (reply_val rep) (reply_err rep)].

Definition write_walked (c : Client) (trace : Reply bool → list Event)
    (done : list Host) (v : WriteVars) (evs : list Event) (reps : list (Reply bool))
  : Prop :=
  evs = flat_map trace reps ∧ map reply_host reps = done ∧
  never_before (write_quorum c) reps ∧
  w_suc v = tally acked reps ∧ w_targets v = addresses acked reps.

Definition write_inv (c : Client) (trace : Reply bool → list Event)
    (done : list Host) (v : WriteVars) (evs : list Event) : Prop :=
  ∃ reps, write_walked c trace done v evs reps ∧ (reps ≠ [] → ¬ write_quorum c reps).

Definition write_brk (c : Client) (trace : Reply bool → list Event)
    (done : list Host) (v : WriteVars) (evs : list Event) : Prop :=
  ∃ reps, write_walked c trace done v evs reps ∧ reps ≠ [] ∧ write_quorum c reps.

(** A loop body without [return] or panic. *)
Definition no_return {X} (_ : list X) (r : Empty_set) (_ : list Event) : Prop :=
  match r with end.
Definition no_panic {X} (_ : list X) (_ : list Event) : Prop := False.

(** **** Incr *)

Definition incr_replies (evs : list Event) : list (Reply Z) :=
  omap (λ e, match e with CallIncr h _ _ r er => Some (h, r, er) | _ => None end) evs.

Definition incr_trace (key : string) (value : Z) (rep : Reply Z) : list Event :=
  [CallIncr (reply_host rep) key value (reply_val rep) (reply_err rep)].

(** The reply counts as a success: no error and [r > 0]. *)
Definition positive (rep : Reply Z) : Prop :=
  reply_err rep = None ∧ 0 < reply_val rep.

Global Instance positive_dec (rep : Reply Z) : Decision (positive rep) :=
  decide (reply_err rep = None ∧ 0 < reply_val rep).

(** The counter values observed: those that came without an error. *)
Definition observed (reps : list (Reply Z)) : list Z :=
  map reply_val (filter replied reps).

(** The greatest of the values, starting from the initial [result] 0. *)
Definition max_counter (vals : list Z) : Z := foldr Z.max 0 vals.

(** The stop test of [Incr], [suc >= c.W && (i+1) >= c.N]; a reply with an
    error goes on to the next backend before the test is reached. *)
Definition incr_stop (c : Client) (reps : list (Reply Z)) : Prop :=
  (∃ rep, last reps = Some rep ∧ reply_err rep = None) ∧
  W c ≤ tally positive reps ∧ N c ≤ Z.of_nat (length reps).

Definition incr_walked (c : Client) (key : string) (value : Z)
    (done : list Host) (v : IncrVars) (evs : list Event) (reps : list (Reply Z)) : Prop :=
  evs = flat_map (incr_trace key value) reps ∧ map reply_host reps = done ∧
  never_before (incr_stop c) reps ∧
  i_result v = max_counter (observed reps) ∧
  i_targets v = addresses positive reps ∧
  i_err v = last_error reps ∧ i_suc v = tally positive reps.

Definition incr_inv (c : Client) (key : string) (value : Z)
    (done : list Host) (v : IncrVars) (evs : list Event) : Prop :=
  ∃ reps, incr_walked c key value done v evs reps ∧ (reps ≠ [] → ¬ incr_stop c reps).

Definition incr_brk (c : Client) (key : string) (value : Z)
    (done : list Host) (v : IncrVars) (evs : list Event) : Prop :=
  ∃ reps, incr_walked c key value done v evs reps ∧ reps ≠ [] ∧ incr_stop c reps.

(** **** Delete *)

Definition delete_replies (evs : list Event) : list (Reply bool) :=
  omap (λ e, match e with CallDelete h _ ok er => Some (h, ok, er) | _ => None end) evs.

Definition delete_trace (key : string) (rep : Reply bool) : list Event :=
  [CallDelete (reply_host rep) key (reply_val rep) (reply_err rep)].

(** The stop test of [Delete], [suc >= c.N]: on the confirmed deletions. *)
Definition delete_stop (c : Client) (reps : list (Reply bool)) : Prop :=
  N c ≤ tally acked reps.

(** A stop test on the number of backends attempted, [i+1 >= c.N]. *)
Definition attempts_stop (c : Client) (reps : list (Reply bool)) : Prop :=
  N c ≤ Z.of_nat (length reps).

Definition delete_walked (c : Client) (key : string)
    (done : list Host) (v : DeleteVars) (evs : list Event) (reps : list (Reply bool))
  : Prop :=
  evs = flat_map (delete_trace key) reps ∧ map reply_host reps = done ∧
  never_before (delete_stop c) reps ∧
  d_suc v = tally acked reps ∧ d_err_count v = tally failed reps ∧
  d_targets v = addresses acked reps ∧ d_err v = last_error reps.

Definition delete_inv (c : Client) (key : string)
    (done : list Host) (v : DeleteVars) (evs : list Event) : Prop :=
  ∃ reps, delete_walked c key done v evs reps ∧ (reps ≠ [] → ¬ delete_stop c reps).

Definition delete_brk (c : Client) (key : string)
    (done : list Host) (v : DeleteVars) (evs : list Event) : Prop :=
  ∃ reps, delete_walked c key done v evs reps ∧ reps ≠ [] ∧ delete_stop c reps.

(** **** getMulti *)

Definition multi_replies (evs : list Event) : list (Reply (gmap string ItemPtr)) :=
  omap (λ e, match e with CallGetMulti h _ r er => Some (h, r, er) | _ => None end) evs.

(** The result map after the replies [reps]: each reply is merged over
    what was there, [for k, v := range r { rs[k] = v }]. *)
Definition merged (reps : list (Reply (gmap string ItemPtr))) : gmap string ItemPtr :=
  foldl (λ rs rep, reply_val rep ∪ rs) ∅ reps.

(** The quorum test of [getMulti]: [i+1 >= c.N && suc >= c.R]. *)
Definition multi_quorum (c : Client) (reps : list (Reply (gmap string ItemPtr))) : Prop :=
  N c ≤ Z.of_nat (length reps) ∧ R c ≤ answered reps.

Definition multi_inv (c : Client) (need : nat)
    (done : list Host) (v : MultiVars) (evs : list Event) : Prop :=
  let reps := multi_replies evs in
  map reply_host reps = done ∧ m_keys v ≠ [] ∧ m_rs v = merged reps ∧
  m_suc v = answered reps ∧ m_targets v = addresses replied reps ∧
  m_err v = last_error reps ∧ never_before (multi_quorum c) reps ∧
  (reps ≠ [] → ¬ multi_quorum c reps ∧ size (merged reps) ≠ need).

Definition multi_brk (c : Client) (need : nat)
    (done : list Host) (v : MultiVars) (evs : list Event) : Prop :=
  let reps := multi_replies evs in
  map reply_host reps = done ∧ reps ≠ [] ∧ m_rs v = merged reps ∧
  never_before (multi_quorum c) reps ∧
  ((size (merged reps) ≠ need ∧ multi_quorum c reps ∧
    m_targets v = [] ∧ m_err v = None) ∨
   ((size (merged reps) = need ∨ ¬ multi_quorum c reps) ∧
    m_targets v = addresses replied reps ∧ m_err v = last_error reps)).

(** The backend answered only for keys of the batch [keys]. *)
Definition answers_within (keys : list string) (rep : Reply (gmap string ItemPtr)) : Prop :=
  ∀ k, is_Some (reply_val rep !! k) → k ∈ keys.

(** ** Further observations *)

(** The [-10] fault feedback recorded for a backend whose read failed. *)
Definition fault_feedback (key : string) (rep : Reply ItemPtr) : Event :=
  CallFeedback (reply_host rep) key (Fixed (-10)) true.

(** The feedback calls among the recorded calls. *)
Definition feedbacks (evs : list Event) : list Event :=
  filter (λ e, is_feedback e = true) evs.

(** **** Rounds of [getMulti]

    One round of the loop of [getMulti]: the backend asked, the first key
    and the rest of the batch it was sent, the map and the error it
    returned, and the elapsed nanoseconds of the latency score. *)
Record Round : Type := mkRound {
  rd_host : Host; rd_key : string; rd_keys : list string;
  rd_map : gmap string ItemPtr; rd_err : error; rd_elapsed : Z
}.

Definition round_batch (rd : Round) : list string := rd_key rd :: rd_keys rd.

Definition round_reply (rd : Round) : Reply (gmap string ItemPtr) :=
  (rd_host rd, rd_map rd, rd_err rd).

(** The calls recorded in one round. *)
Definition round_trace (rd : Round) : list Event :=
  CallGetMulti (rd_host rd) (round_batch rd) (rd_map rd) (rd_err rd) ::
  match rd_err rd with
  | Some _ => [CallFeedback (rd_host rd) (rd_key rd) (Fixed (-10)) true]
  | None => []
  end ++
  [CallFeedback (rd_host rd) (rd_key rd) (Latency (rd_elapsed rd)) false].

(** The batches sent to the backends, in order. *)
Definition multi_batches (evs : list Event) : list (list string) :=
  omap (λ e, match e with CallGetMulti _ ks _ _ => Some ks | _ => None end) evs.

(** The keys of [keys] that the map [rs] does not hold. *)
Definition still_missing (rs : gmap string ItemPtr) (keys : list string) : list string :=
  filter (λ k, rs !! k = None) keys.

(** Every round was sent the keys missing from the replies before it. *)
Definition asked_missing (keys : list string) (rounds : list Round) : Prop :=
  ∀ pre rd post, rounds = pre ++ rd :: post →
    round_batch rd = still_missing (merged (map round_reply pre)) keys.

Definition rounds_inv (keys : list string)
    (done : list Host) (v : MultiVars) (evs : list Event) : Prop :=
  ∃ rounds, evs = flat_map round_trace rounds ∧ map rd_host rounds = done ∧
    asked_missing keys rounds ∧ m_rs v = merged (map round_reply rounds) ∧
    m_keys v = still_missing (m_rs v) keys ∧ m_keys v ≠ [].

Definition rounds_brk (keys : list string)
    (done : list Host) (v : MultiVars) (evs : list Event) : Prop :=
  ∃ rounds, evs = flat_map round_trace rounds ∧ map rd_host rounds = done ∧
    asked_missing keys rounds ∧ m_rs v = merged (map round_reply rounds).

(** The value of [k] in the first reply that holds it. *)
Definition first_value (k : string) (reps : list (Reply (gmap string ItemPtr)))
  : option ItemPtr :=
  head (omap (λ rep, reply_val rep !! k) reps).

(** **** The shards of [GetMulti] *)

(** The results of the shard tasks, run one after the other from the
    world [w]: one per non-empty group. *)
Fixpoint shard_results (c : Client) (gs : list (list string)) (w : World)
  : list MultiResult :=
  match gs with
  | [] => []
  | ks :: gs' =>
      if decide (0 < length ks)%nat then
        match getMulti c ks w with
        | (Returned res, w1, _) => res :: shard_results c gs' w1
        | (Panicked, _, _) => []
        end
      else shard_results c gs' w
  end.

(** What a shard result adds to the merged map and to the merged targets,
    and the error it leaves. *)
Definition shard_entries (rs : gmap string ItemPtr) (res : MultiResult)
  : gmap string ItemPtr :=
  match res with
  | (r, _, None) => r ∪ rs
  | (_, _, Some _) => rs
  end.

Definition shard_targets (res : MultiResult) : list string :=
  match res with
  | (r, t, None) => concat (replicate (size r) t)
  | (_, _, Some _) => []
  end.

Definition shard_error (res : MultiResult) : error := res.2.

End Client.

Arguments Event : clear implicits.
Arguments Scheduler : clear implicits.
Arguments Backend : clear implicits.

(** ** A scripted test double

    Fixed rankings and scripted backend replies: hosts are named by their
    address, the world is the wall clock, every backend call takes one
    millisecond, and feedback is ignored by the scheduler. *)
Module Scripted.

Record Script : Type := {
  ranking : string → list string;
  buckets : list string → list (list string);
  on_Get : string → string → option Z * option string;
  on_GetMulti : string → list string → gmap string (option Z) * option string;
  on_Set : string → string → bool * option string;
  on_Append : string → string → bool * option string;
  on_Incr : string → string → Z * option string;
  on_Delete : string → string → bool * option string
}.

Definition tick (w : Z) : Z := w + 1000000.

Definition scheduler (s : Script) : Scheduler string Z := {|
  Feedback := λ _ _ _ _ w, w;
  GetHostsByKey := λ key w, (ranking s key, w);
  DivideKeysByBucket := λ keys w, (buckets s keys, w)
|}.

Definition backend (s : Script) : Backend Z string string Z := {|
  host_Get := λ h key w, (on_Get s h key, tick w);
  host_GetMulti := λ h keys w, (on_GetMulti s h keys, tick w);
  host_Set := λ h key _ _ w, (on_Set s h key, tick w);
  host_Append := λ h key _ w, (on_Append s h key, tick w);
  host_Incr := λ h key _ w, (on_Incr s h key, tick w);
  host_Delete := λ h key w, (on_Delete s h key, tick w);
  time_Now := λ w, w
|}.

(** The client run against a script, from clock 0. *)
Definition run_Get (s : Script) (c : Client) (key : string) :=
  @Get Z string string Z (λ h, h) (scheduler s) (backend s) c key 0.

Definition run_getMulti (s : Script) (c : Client) (keys : list string) :=
  @getMulti Z string string Z (λ h, h) (scheduler s) (backend s) c keys 0.

Definition run_GetMulti (s : Script) (c : Client) (keys : list string) :=
  @GetMulti Z string string Z (λ h, h) (scheduler s) (backend s) c keys 0.

Definition run_Set (s : Script) (c : Client) (key : string) (item : option Z) :=
  @Set_ Z string string Z (λ h, h) (λ msg, msg) (scheduler s) (backend s)
    c key item false 0.

Definition run_Append (s : Script) (c : Client) (key : string) (value : list byte) :=
  @Append Z string string Z (λ h, h) (λ msg, msg) (scheduler s) (backend s)
    c key value 0.

Definition run_Incr (s : Script) (c : Client) (key : string) (value : Z) :=
  @Incr Z string string Z (λ h, h) (scheduler s) (backend s) c key value 0.

Definition run_Delete (s : Script) (c : Client) (key : string) :=
  @Delete Z string string Z (λ h, h) (scheduler s) (backend s) c key 0.

(** Backends that hold nothing and accept every write, ranked A, B, C. *)
Definition idle : Script := {|
  ranking := λ _, ["A"; "B"; "C"];
  buckets := λ keys, [keys];
  on_Get := λ _ _, (None, None);
  on_GetMulti := λ _ _, (∅, None);
  on_Set := λ _ _, (true, None);
  on_Append := λ _ _, (true, None);
  on_Incr := λ _ _, (0, None);
  on_Delete := λ _ _, (false, None)
|}.

(** The same ranking with faults.  Reads and increments: A fails, B holds
    the value.  Batched reads: A holds the key a only.  Writes: B replies
    not-ok.  Deletes: A and B fail, C confirms. *)
Definition faulty : Script := {|
  ranking := λ _, ["A"; "B"; "C"];
  buckets := λ keys, [keys];
  on_Get := λ h _,
    if String.eqb h "A" then (None, Some "timeout")
    else if String.eqb h "B" then (Some 42, None)
    else (None, None);
  on_GetMulti := λ h _,
    if String.eqb h "A" then ({["a" := Some 1]}, None) else (∅, None);
  on_Set := λ h _, if String.eqb h "B" then (false, None) else (true, None);
  on_Append := λ h _, if String.eqb h "B" then (false, None) else (true, None);
  on_Incr := λ h _,
    if String.eqb h "A" then (0, Some "timeout")
    else if String.eqb h "B" then (5, None)
    else (0, None);
  on_Delete := λ h _,
    if String.eqb h "C" then (true, None) else (false, Some "timeout")
|}.

(** Only A and B are ranked, and neither holds the key. *)
Definition two_hosts : Script := {|
  ranking := λ _, ["A"; "B"];
  buckets := buckets idle;
  on_Get := on_Get idle;
  on_GetMulti := on_GetMulti idle;
  on_Set := on_Set idle;
  on_Append := on_Append idle;
  on_Incr := on_Incr idle;
  on_Delete := on_Delete idle
|}.

(** Every backend is down: each call returns an error. *)
Definition down : Script := {|
  ranking := λ _, ["A"; "B"; "C"];
  buckets := λ keys, [keys];
  on_Get := λ _ _, (None, Some "timeout");
  on_GetMulti := λ _ _, (∅, Some "timeout");
  on_Set := λ _ _, (false, Some "timeout");
  on_Append := λ _ _, (false, Some "timeout");
  on_Incr := λ _ _, (0, Some "timeout");
  on_Delete := λ _ _, (false, Some "timeout")
|}.

(** Only the last ranked backend is up, and it does not hold the key:
    reads of A and B fail, C answers a miss. *)
Definition last_alive : Script := {|
  ranking := λ _, ["A"; "B"; "C"];
  buckets := λ keys, [keys];
  on_Get := λ h _,
    if String.eqb h "C" then (None, None) else (None, Some "timeout");
  on_GetMulti := on_GetMulti down;
  on_Set := on_Set down;
  on_Append := on_Append down;
  on_Incr := on_Incr down;
  on_Delete := on_Delete down
|}.

End Scripted.

(** * Properties of the client *)

Section Proofs.

Set Default Proof Using "Type".

Context {Item Error Host World : Type}.
Context (Addr : Host → string).
Context {sch : Scheduler Host World} {be : Backend Item Error Host World}.

Local Abbreviation Event := (Event Item Error Host).
Local Abbreviation M := (@M Item Error Host World).
Local Abbreviation ItemPtr := (option Item).
Local Abbreviation error := (option Error).
Local Abbreviation Reply A := (Host * A * option Error)%type.
Local Abbreviation skipped_trace := (@skipped_trace Item Error Host).
Local Abbreviation set_replies := (@set_replies Item Error Host).
Local Abbreviation set_trace := (@set_trace Item Error Host).
Local Abbreviation append_replies := (@append_replies Item Error Host).
Local Abbreviation append_trace := (@append_trace Item Error Host).
Local Abbreviation is_feedback := (@is_feedback Item Error Host).
Local Abbreviation multi_replies := (@multi_replies Item Error Host).
Local Abbreviation feedbacks := (@feedbacks Item Error Host).
Local Abbreviation Round := (@Round Item Error Host).
Local Abbreviation multi_batches := (@multi_batches Item Error Host).
Local Abbreviation round_trace := (@round_trace Item Error Host).
Local Abbreviation incr_replies := (@incr_replies Item Error Host).
Local Abbreviation incr_trace := (@incr_trace Item Error Host).
Local Abbreviation delete_replies := (@delete_replies Item Error Host).
Local Abbreviation delete_trace := (@delete_trace Item Error Host).

(** ** Runs of the monad and of loops *)

Lemma bind_run {A B} (m : M A) (k : A → M B) (w : World) :
  bind m k w =
  match m w with
  | (Returned a, w1, t1) =>
      match k a w1 with (o, w2, t2) => (o, w2, t1 ++ t2) end
  | (Panicked, w1, t1) => (Panicked, w1, t1)
  end.
Proof. reflexivity. Qed.

Lemma for_range_nil {X S R} (body : nat → X → S → M (Ctl S R)) i s w :
  for_range body i [] s w = (Returned (inl s), w, []).
Proof. reflexivity. Qed.

Lemma for_range_cons {X S R} (body : nat → X → S → M (Ctl S R)) i x xs s w :
  for_range body i (x :: xs) s w =
  match body i x s w with
  | (Returned (Next s'), w1, t1) =>
      match for_range body (Datatypes.S i) xs s' w1 with
      | (o, w2, t2) => (o, w2, t1 ++ t2)
      end
  | (Returned (Break s'), w1, t1) => (Returned (inl s'), w1, t1)
  | (Returned (Return r), w1, t1) => (Returned (inr r), w1, t1)
  | (Panicked, w1, t1) => (Panicked, w1, t1)
  end.
Proof.
  cbn [for_range]. unfold mbind, M_bind. rewrite bind_run.
  destruct (body i x s w) as [[[[s'|s'|r]|] w1] t1]; try reflexivity.
  all: cbn; by rewrite app_nil_r.
Qed.

Section LoopRule.
Context {X S R' : Type} (body : nat → X → S → M (Ctl S R')) (xs : list X).
Context (I B : list X → S → list Event → Prop).
Context (Rt : list X → R' → list Event → Prop) (P : list X → list Event → Prop).

Hypothesis step : ∀ done x rest s w evs,
  xs = done ++ x :: rest → I done s evs →
  match body (length done) x s w with
  | (Returned (Next s'), _, e) => I (done ++ [x]) s' (evs ++ e)
  | (Returned (Break s'), _, e) => B (done ++ [x]) s' (evs ++ e)
  | (Returned (Return r), _, e) => Rt (done ++ [x]) r (evs ++ e)
  | (Panicked, _, e) => P (done ++ [x]) (evs ++ e)
  end.

Lemma for_range_from rest : ∀ done s w evs,
  xs = done ++ rest → I done s evs →
  loop_post xs I B Rt P evs (for_range body (length done) rest s w).
Proof using step.
  induction rest as [|x rest IH]; intros done s w evs Hxs HI.
  - rewrite for_range_nil. cbn. left. rewrite !app_nil_r in *. by subst.
  - rewrite for_range_cons.
    pose proof (step done x rest s w evs Hxs HI) as Hstep.
    assert (Hpre : (done ++ [x]) `prefix_of` xs).
    { exists rest. by rewrite Hxs, <- app_assoc. }
    destruct (body (length done) x s w) as [[[[s'|s'|r]|] w1] t1]; cbn.
    + specialize (IH (done ++ [x]) s' w1 (evs ++ t1)).
      rewrite length_app, Nat.add_1_r in IH.
      destruct (for_range body (Datatypes.S (length done)) rest s' w1)
        as [[o w2] t2].
      specialize (IH ltac:(by rewrite Hxs, <- app_assoc) Hstep).
      unfold loop_post in *.
      destruct o as [[s''|r]|]; rewrite app_assoc; exact IH.
    + right. eauto.
    + eauto.
    + eauto.
Qed.

Lemma for_range_rule s w :
  I [] s [] → loop_post xs I B Rt P [] (for_range body 0 xs s w).
Proof using step. intros HI. by apply (for_range_from xs [] s w []). Qed.

End LoopRule.

(** ** Walks and their replies *)

Lemma never_before_nil {A} (stop : list A → Prop) : never_before stop [].
Proof. intros pre Hpre Hne _. by apply prefix_nil_inv in Hpre. Qed.

Lemma prefix_snoc_inv {A} (pre l : list A) (x : A) :
  pre `prefix_of` l ++ [x] → pre = l ++ [x] ∨ pre `prefix_of` l.
Proof.
  intros [k Hk]. destruct k as [|y k _] using rev_ind.
  - left. by rewrite app_nil_r in Hk.
  - right. rewrite app_assoc in Hk. apply app_inj_tail in Hk as [-> _]. by exists k.
Qed.

Lemma prefix_proper {A} (pre l : list A) :
  pre `prefix_of` l → pre = l ∨ (pre ≠ l ∧ (length pre < length l)%nat).
Proof.
  intros [k ->]. destruct k as [|y k].
  - left. by rewrite app_nil_r.
  - right. rewrite length_app. cbn. split; [|lia].
    intros Heq. apply (f_equal length) in Heq. rewrite length_app in Heq. cbn in Heq. lia.
Qed.

Lemma never_before_snoc {A} (stop : list A → Prop) (reps : list A) (x : A) :
  never_before stop reps → (reps ≠ [] → ¬ stop reps) →
  never_before stop (reps ++ [x]).
Proof.
  intros Hnb Hlast pre Hpre Hne Hneq.
  apply prefix_snoc_inv in Hpre as [->|Hpre]; [done|].
  destruct (prefix_proper _ _ Hpre) as [->|[Hd _]]; [by apply Hlast | by apply Hnb].
Qed.

Lemma tally_snoc {A} (P : A → Prop) `{∀ x, Decision (P x)} (l : list A) (x : A) :
  tally P (l ++ [x]) = tally P l + (if decide (P x) then 1 else 0).
Proof.
  unfold tally. rewrite filter_app, length_app. cbn.
  destruct (decide (P x)); cbn; lia.
Qed.

Lemma answered_snoc {A} (reps : list (Reply A)) (rep : Reply A) :
  answered (reps ++ [rep]) =
  answered reps + match reply_err rep with None => 1 | Some _ => 0 end.
Proof.
  unfold answered. rewrite tally_snoc. destruct rep as [[h a] [e|]]; cbn.
  - by rewrite decide_False.
  - by rewrite decide_True.
Qed.

Lemma last_reply_snoc (reps : list (Reply ItemPtr)) (rep : Reply ItemPtr) :
  last_reply (reps ++ [rep]) = (reply_val rep, reply_err rep).
Proof. unfold last_reply. by rewrite last_snoc. Qed.

Lemma get_replies_app (e1 e2 : list Event) :
  get_replies (e1 ++ e2) = get_replies e1 ++ get_replies e2.
Proof. apply omap_app. Qed.

Lemma get_replies_trace key (reps : list (Reply ItemPtr)) :
  get_replies (flat_map (get_trace key) reps) = reps.
Proof.
  induction reps as [|[[h r] e] reps IH]; [done|].
  cbn [flat_map]. rewrite get_replies_app, IH.
  unfold get_trace, reply_host, reply_val, reply_err. cbn. by destruct e.
Qed.

Lemma get_replies_skipped key (hs : list Host) :
  get_replies (skipped_trace key hs) = [].
Proof. by induction hs. Qed.

Lemma get_replies_served key hosts (reps : list (Reply ItemPtr)) h val t :
  get_replies (served_trace key hosts reps h val t) = reps ++ [(h, Some val, None)].
Proof.
  unfold served_trace. rewrite !get_replies_app, get_replies_trace, get_replies_skipped.
  reflexivity.
Qed.

Lemma feedback_skipped_run key (hs : list Host) (w : World) :
  ∃ w', feedback_skipped key hs w =
        (Returned tt, w', skipped_trace key hs).
Proof.
  revert w. induction hs as [|h hs IH]; intros w; [by eexists|].
  cbn [feedback_skipped]. unfold mbind, M_bind. rewrite bind_run. unfold feedback at 1.
  destruct (IH (Feedback h key (Fixed (-1)) false w)) as [w' ->]. by eexists.
Qed.

(** ** Get *)

Lemma walked_snoc c key done evs (reps : list (Reply ItemPtr)) (rep : Reply ItemPtr) :
  walked c key done evs reps → (reps ≠ [] → ¬ miss_quorum c reps) → ¬ found rep →
  walked c key (done ++ [reply_host rep]) (evs ++ get_trace key rep) (reps ++ [rep]).
Proof.
  intros (-> & <- & Hnf & Hnb) Hq Hrep. repeat split.
  - rewrite flat_map_app. cbn. by rewrite app_nil_r.
  - by rewrite map_app.
  - apply Forall_app. split; [done|]. by constructor.
  - by apply never_before_snoc.
Qed.

Lemma walked_length c key done evs (reps : list (Reply ItemPtr)) :
  walked c key done evs reps → length done = length reps.
Proof. intros (_ & <- & _). by rewrite length_map. Qed.

Lemma miss_quorum_snoc c (reps : list (Reply ItemPtr)) (rep : Reply ItemPtr) :
  miss_quorum c (reps ++ [rep]) ↔
  R c ≤ answered reps + match reply_err rep with None => 1 | Some _ => 0 end ∧
  N c ≤ Z.of_nat (length reps) + 1.
Proof. unfold miss_quorum. rewrite answered_snoc, length_app. cbn. lia. Qed.

Lemma snoc_not_nil {A} (l : list A) (x : A) : l ++ [x] ≠ [].
Proof. by destruct l. Qed.

Lemma Get_body_step c key hosts done x rest v w evs :
  hosts = done ++ x :: rest → Get_inv c key done v evs →
  match Get_body Addr c key hosts (length done) x v w with
  | (Returned (Next s'), _, e) => Get_inv c key (done ++ [x]) s' (evs ++ e)
  | (Returned (Break s'), _, e) => Get_brk Addr c key hosts (done ++ [x]) s' (evs ++ e)
  | (Returned (Return r), _, e) => Get_ret Addr c key hosts (done ++ [x]) r (evs ++ e)
  | (Panicked, _, e) => Get_pan c key hosts (done ++ [x]) (evs ++ e)
  end.
Proof.
  intros Hh (reps & Hw & Hq & Hcnt & Htg & Hlast).
  pose proof (walked_length _ _ _ _ _ Hw) as Hlen.
  unfold Get_body, mbind, M_bind, bind, now, hostGet, feedback, slice_to, mret, M_ret,
    ret, panic.
  destruct (host_Get x key w) as [[r [e|]] w1] eqn:Hg.
  - (* transport error *)
    set (rep := (x, r, Some e) : Reply ItemPtr).
    assert (Hnf : ¬ found rep) by (by intros [_ ?]).
    pose proof (walked_snoc _ _ _ _ _ _ Hw Hq Hnf) as Hw'.
    pose proof (miss_quorum_snoc c reps rep) as Hqq. cbn in Hqq.
    rewrite <- Hcnt, <- Hlen, Z.add_0_r in Hqq.
    repeat case_decide; simpl.
    + exists (reps ++ [rep]). split; [exact Hw'|]. rewrite last_reply_snoc, Htg.
      repeat split; try done; try (by apply Hqq). apply snoc_not_nil.
    + exists (reps ++ [rep]). split; [exact Hw'|].
      repeat split; try (by apply Hqq); [apply snoc_not_nil | lia].
    + exists (reps ++ [rep]). split; [exact Hw'|].
      rewrite last_reply_snoc, answered_snoc. cbn.
      repeat split; try done; [by rewrite Hqq | lia].
  - destruct r as [val|].
    + (* served *)
      destruct (feedback_skipped_run key (take (length done) hosts)
                  (Feedback x key (Latency (time_Now w1 - time_Now w)) false w1))
        as [w' ->]. simpl.
      exists reps, x, val, (time_Now w1 - time_Now w).
      destruct Hw as (-> & <- & Hnf & Hnb). repeat split; try done.
      unfold served_trace. rewrite length_map, app_nil_r. reflexivity.
    + (* miss *)
      set (rep := (x, None, None) : Reply ItemPtr).
      assert (Hnf : ¬ found rep) by (by intros [[? [=]] _]).
      pose proof (walked_snoc _ _ _ _ _ _ Hw Hq Hnf) as Hw'.
      pose proof (miss_quorum_snoc c reps rep) as Hqq. cbn in Hqq.
      rewrite <- Hcnt, <- Hlen in Hqq.
      repeat case_decide; simpl.
      * exists (reps ++ [rep]). split; [exact Hw'|]. rewrite last_reply_snoc, Htg.
        repeat split; try done; try (by apply Hqq). apply snoc_not_nil.
      * exists (reps ++ [rep]). split; [exact Hw'|].
        repeat split; try (by apply Hqq); [apply snoc_not_nil | lia].
      * exists (reps ++ [rep]). split; [exact Hw'|].
        rewrite last_reply_snoc, answered_snoc. cbn.
        repeat split; try done; [by rewrite Hqq | lia].
Qed.

Lemma lookup_map {A B} (f : A → B) (l : list A) (i : nat) :
  map f l !! i = f <$> l !! i.
Proof. revert i. induction l as [|x l IH]; intros [|i]; cbn; auto. Qed.

Lemma prefix_is_take {A} (pre l : list A) :
  pre `prefix_of` l → pre = take (length pre) l.
Proof. intros [k ->]. by rewrite take_app_length. Qed.

Lemma Get_run c key w :
  let hosts := (GetHostsByKey key w).1 in
  match Get Addr c key w with
  | (Returned res, _, evs) =>
      (∃ v, res = (g_r v, g_targets v, g_err v) ∧
            (Get_inv c key hosts v evs ∨
             ∃ done, done `prefix_of` hosts ∧ Get_brk Addr c key hosts done v evs)) ∨
      (∃ done, done `prefix_of` hosts ∧ Get_ret Addr c key hosts done res evs)
  | (Panicked, _, evs) => ∃ done, done `prefix_of` hosts ∧ Get_pan c key hosts done evs
  end.
Proof.
  unfold Get, mbind, M_bind. rewrite bind_run. unfold hostsByKey at 1.
  destruct (GetHostsByKey key w) as [hosts w0]. cbn [fst]. rewrite bind_run.
  pose proof (for_range_rule (Get_body Addr c key hosts) hosts
                (Get_inv c key) (Get_brk Addr c key hosts)
                (Get_ret Addr c key hosts) (Get_pan c key hosts)
                (Get_body_step c key hosts) (mkGetVars 0 None [] None) w0) as Hloop.
  destruct (for_range (Get_body Addr c key hosts) 0 hosts (mkGetVars 0 None [] None) w0)
    as [[[[v|res]|] w1] evs]; cbn in *.
  - rewrite app_nil_r. left. exists v. split; [done|]. apply Hloop.
    exists []. repeat split; try done; apply never_before_nil.
  - rewrite app_nil_r. right. apply Hloop.
    exists []. repeat split; try done; apply never_before_nil.
  - apply Hloop.
    exists []. repeat split; try done; apply never_before_nil.
Qed.

Lemma found_lookup_absurd (reps : list (Reply ItemPtr)) i h val :
  Forall (λ rep, ¬ found rep) reps → reps !! i = Some (h, Some val, None) → False.
Proof.
  intros Hnf Hi. rewrite Forall_lookup in Hnf. apply (Hnf _ _ Hi). by split; [eexists|].
Qed.

Lemma get_trace_fault key (reps : list (Reply ItemPtr)) j h r e :
  reps !! j = Some (h, r, Some e) →
  CallFeedback h key (Fixed (-10)) true ∈ flat_map (get_trace key) reps.
Proof.
  intros Hj. apply list_elem_of_In, in_flat_map. exists (h, r, Some e). split.
  - apply list_elem_of_In, list_elem_of_lookup. eauto.
  - cbn. auto.
Qed.

Lemma skipped_trace_elem key (hs : list Host) j h :
  hs !! j = Some h → CallFeedback h key (Fixed (-1)) false ∈ skipped_trace key hs.
Proof.
  intros Hj. apply list_elem_of_In, in_map_iff. exists h. split; [done|].
  apply list_elem_of_In, list_elem_of_lookup. eauto.
Qed.

(** C1.  [Get] contacts the ranked backends in rank order, and a read that
    succeeds with a non-nil value is the last one it makes: it returns
    there with that value, the serving backend's address as the only
    target and a nil error.  The calls recorded are then exactly the
    reads of the backends ranked ahead (each followed by a [-10] fault
    feedback when it failed), the serving read with its latency
    feedback, and a flat [-1] non-fault feedback for every backend at
    indexes [0 .. i-1], those that failed included. *)
Theorem Get_serves_first_found c key w :
  let run := Get Addr c key w in
  let hosts := (GetHostsByKey key w).1 in
  let reps := get_replies (calls run) in
  map reply_host reps = take (length reps) hosts ∧
  ∀ i h val, reps !! i = Some (h, Some val, None) →
    length reps = Datatypes.S i ∧
    Forall (λ rep, ¬ found rep) (take i reps) ∧
    outcome run = Returned (Some val, [Addr h], None) ∧
    (∃ t, calls run = served_trace key hosts (take i reps) h val t) ∧
    (∀ j h', (j < i)%nat → hosts !! j = Some h' →
       CallFeedback h' key (Fixed (-1)) false ∈ calls run) ∧
    (∀ j h' r e, (j < i)%nat → reps !! j = Some (h', r, Some e) →
       CallFeedback h' key (Fixed (-10)) true ∈ calls run ∧
       CallFeedback h' key (Fixed (-1)) false ∈ calls run).
Proof.
  intros run hosts reps. subst run hosts reps. pose proof (Get_run c key w) as Hrun.
  cbn zeta in Hrun. set (hosts := (GetHostsByKey key w).1) in *.
  destruct (Get Addr c key w) as [[[res|] w1] evs]; unfold calls, outcome; cbn [fst snd].
  - destruct Hrun as [(v & -> & [(reps & Hw & _)|(done & Hpre & reps & Hw & _)])
                     |(done & Hpre & reps & h & val & t & Hw & Hq & -> & -> & ->)].
    + destruct Hw as (-> & Hd & Hnf & _). rewrite get_replies_trace.
      split; [by rewrite Hd, firstn_all2; [|rewrite <- Hd, length_map] |].
      intros i h val Hi. by destruct (found_lookup_absurd _ _ _ _ Hnf Hi).
    + destruct Hw as (-> & Hd & Hnf & _). rewrite get_replies_trace.
      split; [rewrite <- (length_map reply_host), Hd; by apply prefix_is_take |].
      intros i h val Hi. by destruct (found_lookup_absurd _ _ _ _ Hnf Hi).
    + destruct Hw as (_ & _ & Hnf & _). rewrite get_replies_served.
      split.
      { rewrite map_app, length_app. cbn.
        rewrite (prefix_is_take _ _ Hpre) at 1. by rewrite length_app, length_map. }
      intros i h0 val0 Hi.
      apply lookup_snoc_Some in Hi as [[Hlt Hi]|[-> Heq]].
      { by destruct (found_lookup_absurd _ _ _ _ Hnf Hi). }
      injection Heq as <- <-. rewrite take_app_length.
      assert (Hskip : ∀ j h', (j < length reps)%nat → hosts !! j = Some h' →
                CallFeedback h' key (Fixed (-1)) false ∈
                  served_trace key hosts reps h val t).
      { intros j h' Hj Hh'. unfold served_trace. rewrite !elem_of_app. right. right.
        apply (skipped_trace_elem key _ j). by rewrite lookup_take_lt. }
      split_and!; try done.
      * rewrite length_app. cbn. lia.
      * by exists t.
      * intros j h' r e Hj Hrj. rewrite lookup_app_l in Hrj by done.
        split; [|apply (Hskip j); [done|]].
        { unfold served_trace. rewrite elem_of_app. left. by eapply get_trace_fault. }
        apply (prefix_lookup_Some (map reply_host reps ++ [h])); [|done].
        rewrite lookup_app_l by (by rewrite length_map).
        by rewrite lookup_map, Hrj.
  - destruct Hrun as (done & Hpre & reps & (-> & Hd & Hnf & _) & _).
    rewrite get_replies_trace.
    split; [rewrite <- (length_map reply_host), Hd; by apply prefix_is_take |].
    intros i h val Hi. by destruct (found_lookup_absurd _ _ _ _ Hnf Hi).
Qed.

Lemma last_reply_no_value (reps : list (Reply ItemPtr)) :
  Forall (λ rep, reply_val rep = None) reps → (last_reply reps).1 = None.
Proof.
  intros Hall. unfold last_reply. destruct (last reps) as [rep|] eqn:Hl; [|done].
  rewrite Forall_forall in Hall. apply Hall.
  apply last_Some in Hl as [l' ->]. set_solver.
Qed.

(** The two exits of [Get] when no contacted backend returned a value.
    The walk never went on past a point where [cnt >= c.R] and
    [i+1 >= c.N] both held.  Either that test holds for the backends
    contacted: the miss branch, with a nil value, a nil error and the
    addresses of the first three ranked candidates as targets.  Or the
    test never held: every candidate was contacted, the target list is
    empty and the error is that of the last reply, which is nil when the
    last backend answered.  A panic happens only when the test holds and
    fewer than three candidates were ranked. *)
Theorem Get_unserved_outcome c key w :
  let run := Get Addr c key w in
  let hosts := (GetHostsByKey key w).1 in
  let reps := get_replies (calls run) in
  Forall (λ rep, reply_val rep = None) reps →
  never_before (miss_quorum c) reps ∧
  match outcome run with
  | Returned (r, targets, err) =>
      r = None ∧
      ((reps ≠ [] ∧ miss_quorum c reps ∧ err = None ∧
        targets = map Addr (take 3 hosts) ∧ length targets = 3%nat) ∨
       (¬ (reps ≠ [] ∧ miss_quorum c reps) ∧ map reply_host reps = hosts ∧
        targets = [] ∧ err = (last_reply reps).2))
  | Panicked => reps ≠ [] ∧ miss_quorum c reps ∧ (length hosts < 3)%nat
  end.
Proof.
  intros run hosts reps. subst run hosts reps. pose proof (Get_run c key w) as Hrun.
  cbn zeta in Hrun. set (hosts := (GetHostsByKey key w).1) in *.
  destruct (Get Addr c key w) as [[[res|] w1] evs]; unfold calls, outcome; cbn [fst snd].
  - destruct Hrun as [(v & -> & [(reps & Hw & Hq & _ & Htg & Hlast)
                                |(done & Hpre & reps & Hw & Hne & Hq & H3 & Htg & Hr & He)])
                     |(done & Hpre & reps & h & val & t & Hw & Hq & -> & -> & ->)].
    + destruct Hw as (-> & Hd & Hnf & Hnb). rewrite get_replies_trace. intros Hall.
      split; [done|]. pose proof (last_reply_no_value _ Hall) as Hnone.
      rewrite <- Hlast in *. cbn in Hnone. split; [done|]. right.
      split_and!; try done. tauto.
    + destruct Hw as (-> & Hd & Hnf & Hnb). rewrite get_replies_trace. intros Hall.
      split; [done|]. rewrite Hr. split; [by apply last_reply_no_value|]. left.
      split_and!; try done. rewrite Htg, length_map, length_take. lia.
    + rewrite get_replies_served. intros Hall.
      apply Forall_app in Hall as [_ Hall]. by inversion Hall.
  - destruct Hrun as (done & Hpre & reps & (-> & Hd & Hnf & Hnb) & Hne & Hq & H3).
    rewrite get_replies_trace. intros _. done.
Qed.

(** ** Counting replies *)

Lemma addresses_snoc {A} (P : Reply A → Prop) `{∀ x, Decision (P x)}
    (l : list (Reply A)) (x : Reply A) :
  addresses Addr P (l ++ [x]) =
  addresses Addr P l ++ (if decide (P x) then [Addr (reply_host x)] else []).
Proof.
  unfold addresses. rewrite filter_app, map_app. cbn.
  by destruct (decide (P x)).
Qed.

Lemma stops_at_full {A} (stop : list A → Prop) (n : nat) (reps : list A) :
  never_before stop reps → length reps = n → stops_at stop n reps.
Proof. intros Hnb Hlen. split; [done|]. lia. Qed.

(** [Get] panics exactly when its miss branch is reached with fewer than
    three backends ranked. *)
Lemma Get_panics_iff c key w :
  let run := Get Addr c key w in
  let hosts := (GetHostsByKey key w).1 in
  let reps := get_replies (calls run) in
  outcome run = Panicked ↔
  reps ≠ [] ∧ Forall (λ rep, ¬ found rep) reps ∧ miss_quorum c reps ∧
  (length hosts < 3)%nat.
Proof.
  intros run hosts reps. subst run hosts reps. pose proof (Get_run c key w) as Hrun.
  cbn zeta in Hrun. set (hosts := (GetHostsByKey key w).1) in *.
  destruct (Get Addr c key w) as [[[res|] w1] evs]; unfold calls, outcome; cbn [fst snd].
  - split; [done|]. intros (Hne & Hnf & Hq & H3). exfalso.
    destruct Hrun as [(v & -> & [(reps & Hw & Hnq & _)|(done & Hpre & reps & Hw & _ & _ & H3' & _)])
                     |(done & Hpre & reps & h & val & t & Hw & _ & -> & -> & ->)].
    + destruct Hw as (-> & _). rewrite get_replies_trace in *. by apply Hnq.
    + lia.
    + rewrite get_replies_served in Hnf. apply Forall_app in Hnf as [_ Hnf].
      inversion_clear Hnf as [|? ? Hf _]. apply Hf. by split; [eexists|].
  - destruct Hrun as (done & Hpre & reps & (-> & Hd & Hnf & Hnb) & Hne & Hq & H3).
    rewrite get_replies_trace. done.
Qed.

(** ** Set and Append *)

Lemma write_quorum_snoc c (reps : list (Reply bool)) (rep : Reply bool) :
  write_quorum c (reps ++ [rep]) ↔
  W c ≤ tally acked reps + (if decide (acked rep) then 1 else 0) ∧
  N c ≤ Z.of_nat (length reps) + 1.
Proof. unfold write_quorum. rewrite tally_snoc, length_app. cbn. lia. Qed.

Lemma write_walked_snoc c (trace : Reply bool → list Event) done v v' evs
    (reps : list (Reply bool)) rep :
  write_walked Addr c trace done v evs reps → (reps ≠ [] → ¬ write_quorum c reps) →
  w_suc v' = w_suc v + (if decide (acked rep) then 1 else 0) →
  w_targets v' = w_targets v ++ (if decide (acked rep) then [Addr (reply_host rep)] else []) →
  write_walked Addr c trace (done ++ [reply_host rep]) v' (evs ++ trace rep) (reps ++ [rep]).
Proof.
  intros (-> & <- & Hnb & Hsuc & Htg) Hq Hs' Ht'. split_and!.
  - rewrite flat_map_app. cbn. by rewrite app_nil_r.
  - by rewrite map_app.
  - by apply never_before_snoc.
  - by rewrite tally_snoc, Hs', Hsuc.
  - by rewrite addresses_snoc, Ht', Htg.
Qed.

Lemma write_walk_post c (trace : Reply bool → list Event) hosts v evs :
  write_inv Addr c trace hosts v evs ∨
  (∃ done, done `prefix_of` hosts ∧ write_brk Addr c trace done v evs) →
  ∃ reps, evs = flat_map trace reps ∧ map reply_host reps `prefix_of` hosts ∧
    stops_at (write_quorum c) (length hosts) reps ∧
    w_suc v = tally acked reps ∧ w_targets v = addresses Addr acked reps.
Proof.
  intros [(reps & (Hev & Hd & Hnb & Hsuc & Htg) & Hq)
         |(done & Hpre & reps & (Hev & Hd & Hnb & Hsuc & Htg) & Hne & Hq)];
    exists reps; (split; [exact Hev|]); (split; [by rewrite Hd|]);
    (split; [|by split]).
  - apply stops_at_full; [done|]. by rewrite <- Hd, length_map.
  - by split.
Qed.

Lemma Set_body_step c key item noreply hosts done x rest v w evs :
  hosts = done ++ x :: rest →
  write_inv Addr c (set_trace key item noreply) done v evs →
  match Set_body Addr c key item noreply (length done) x v w with
  | (Returned (Next s'), _, e) =>
      write_inv Addr c (set_trace key item noreply) (done ++ [x]) s' (evs ++ e)
  | (Returned (Break s'), _, e) =>
      write_brk Addr c (set_trace key item noreply) (done ++ [x]) s' (evs ++ e)
  | (Returned (Return r), _, e) => no_return (done ++ [x]) r (evs ++ e)
  | (Panicked, _, e) => no_panic (done ++ [x]) (evs ++ e)
  end.
Proof.
  intros Hh (reps & Hw & Hq).
  assert (Hlen : length done = length reps).
  { destruct Hw as (_ & <- & _). by rewrite length_map. }
  unfold Set_body, mbind, M_bind, bind, hostSet, feedback, mret, M_ret, ret.
  destruct (host_Set x key item noreply w) as [[ok e] w1] eqn:Hs.
  set (rep := (x, ok, e) : Reply bool).
  pose proof (write_quorum_snoc c reps rep) as Hqq. rewrite <- Hlen in Hqq.
  pose proof (λ v', write_walked_snoc c _ _ v v' _ _ rep Hw Hq) as Hw'.
  assert (Hsuc : w_suc v = tally acked reps) by apply Hw.
  destruct e as [e|]; [|destruct ok]; simpl;
    (destruct (decide (acked rep)) as [Ha|Ha];
       [try (by destruct Ha) | try (by exfalso; apply Ha)]);
    case_decide; simpl.
  all: first
    [ exists (reps ++ [rep]); split;
        [apply Hw'; simpl; [lia | by rewrite ?app_nil_r]|];
        split; [apply snoc_not_nil | apply Hqq; lia]
    | exists (reps ++ [rep]); split;
        [apply Hw'; simpl; [lia | by rewrite ?app_nil_r]|];
        intros _; rewrite Hqq; lia ].
Qed.


Lemma Append_body_step c key value hosts done x rest v w evs :
  hosts = done ++ x :: rest →
  write_inv Addr c (append_trace key value) done v evs →
  match Append_body Addr c key value (length done) x v w with
  | (Returned (Next s'), _, e) =>
      write_inv Addr c (append_trace key value) (done ++ [x]) s' (evs ++ e)
  | (Returned (Break s'), _, e) =>
      write_brk Addr c (append_trace key value) (done ++ [x]) s' (evs ++ e)
  | (Returned (Return r), _, e) => no_return (done ++ [x]) r (evs ++ e)
  | (Panicked, _, e) => no_panic (done ++ [x]) (evs ++ e)
  end.
Proof.
  intros Hh (reps & Hw & Hq).
  assert (Hlen : length done = length reps).
  { destruct Hw as (_ & <- & _). by rewrite length_map. }
  unfold Append_body, mbind, M_bind, bind, hostAppend, mret, M_ret, ret.
  destruct (host_Append x key value w) as [[ok e] w1] eqn:Hs.
  set (rep := (x, ok, e) : Reply bool).
  pose proof (write_quorum_snoc c reps rep) as Hqq. rewrite <- Hlen in Hqq.
  pose proof (λ v', write_walked_snoc c _ _ v v' _ _ rep Hw Hq) as Hw'.
  assert (Hsuc : w_suc v = tally acked reps) by apply Hw.
  destruct e as [e|]; [|destruct ok]; simpl;
    (destruct (decide (acked rep)) as [Ha|Ha];
       [try (by destruct Ha) | try (by exfalso; apply Ha)]);
    case_decide; simpl.
  all: first
    [ exists (reps ++ [rep]); split;
        [apply Hw'; simpl; [lia | by rewrite ?app_nil_r]|];
        split; [apply snoc_not_nil | apply Hqq; lia]
    | exists (reps ++ [rep]); split;
        [apply Hw'; simpl; [lia | by rewrite ?app_nil_r]|];
        intros _; rewrite Hqq; lia ].
Qed.

Lemma write_inv_init c (trace : Reply bool → list Event) :
  write_inv Addr c trace [] (mkWriteVars 0 []) [].
Proof. exists []. split; [|done]. split_and!; try done. apply never_before_nil. Qed.

Lemma set_replies_trace key item noreply (reps : list (Reply bool)) :
  set_replies (flat_map (set_trace key item noreply) reps) = reps.
Proof.
  induction reps as [|[[h ok] e] reps IH]; [done|].
  cbn [flat_map]. unfold set_replies in *. rewrite omap_app, IH.
  unfold set_trace. cbn. by case_decide.
Qed.

Lemma append_replies_trace key value (reps : list (Reply bool)) :
  append_replies (flat_map (append_trace key value) reps) = reps.
Proof.
  induction reps as [|[[h ok] e] reps IH]; [done|].
  cbn [flat_map]. unfold append_replies in *. by rewrite omap_app, IH.
Qed.

Lemma append_trace_no_feedback key value (reps : list (Reply bool)) :
  Forall (λ e, is_feedback e = false) (flat_map (append_trace key value) reps).
Proof. induction reps as [|rep reps IH]; cbn; by constructor. Qed.

Section Writes.
Context (errors_New : string → Error).

Lemma write_result_run c v (w : World) :
  (write_result errors_New c v : M _) w =
  (Returned (if decide (w_suc v < W c) then (false, w_targets v, Some (errors_New "write failed"))
             else (true, w_targets v, None)), w, []).
Proof. unfold write_result. by case_decide. Qed.

Lemma Set_run c key item noreply w :
  let hosts := (GetHostsByKey key w).1 in
  ∃ reps w',
    Set_ Addr errors_New c key item noreply w =
      (Returned (if decide (tally acked reps < W c)
                 then (false, addresses Addr acked reps, Some (errors_New "write failed"))
                 else (true, addresses Addr acked reps, None)),
       w', flat_map (set_trace key item noreply) reps) ∧
    map reply_host reps `prefix_of` hosts ∧
    stops_at (write_quorum c) (length hosts) reps.
Proof.
  unfold Set_, mbind, M_bind. rewrite bind_run. unfold hostsByKey at 1.
  destruct (GetHostsByKey key w) as [hosts w0]. cbn [fst]. rewrite bind_run.
  pose proof (for_range_rule (Set_body Addr c key item noreply) hosts
                _ _ _ _ (Set_body_step c key item noreply hosts)
                (mkWriteVars 0 []) w0 (write_inv_init c _)) as Hloop.
  destruct (for_range (Set_body Addr c key item noreply) 0 hosts (mkWriteVars 0 []) w0)
    as [[[[v|[]]|] w1] evs]; cbn in Hloop; [|by destruct Hloop as (? & _ & [])].
  apply write_walk_post in Hloop as (reps & -> & Hpre & Hstop & Hsuc & Htg).
  exists reps, w1. rewrite write_result_run. cbn [ended].
  rewrite Hsuc, Htg, app_nil_r. done.
Qed.

(** C6.  [Set] walks the ranked backends in order and stops exactly when
    the success count has reached [W] with at least [N] candidates
    attempted.  It returns [ok = false] with the write-failure error if and
    only if fewer than [W] of the contacted backends acknowledged, and
    [ok = true] with a nil error otherwise; the targets are the backends
    that acknowledged.  The calls recorded are the writes, each one that
    failed (transport error or not-ok reply) followed by a [-2] non-fault
    feedback for that backend, and nothing else. *)
Theorem Set_write_quorum c key item noreply w :
  let run := Set_ Addr errors_New c key item noreply w in
  let hosts := (GetHostsByKey key w).1 in
  let reps := set_replies (calls run) in
  calls run = flat_map (set_trace key item noreply) reps ∧
  map reply_host reps `prefix_of` hosts ∧
  stops_at (write_quorum c) (length hosts) reps ∧
  ∃ ok targets err,
    outcome run = Returned (ok, targets, err) ∧
    targets = addresses Addr acked reps ∧
    (tally acked reps < W c ↔ ok = false ∧ err = Some (errors_New "write failed")) ∧
    (W c ≤ tally acked reps ↔ ok = true ∧ err = None).
Proof.
  intros run hosts reps. subst run hosts reps.
  destruct (Set_run c key item noreply w) as (reps & w' & -> & Hpre & Hstop).
  unfold calls, outcome. cbn [fst snd]. rewrite set_replies_trace.
  split_and!; try done.
  case_decide; eexists _, _, _; (split; [reflexivity|]); (split; [reflexivity|]);
    split; (split; [intros ?; first [lia | done] | intros [? ?]; first [lia | done]]).
Qed.

Lemma Append_run c key value w :
  let hosts := (GetHostsByKey key w).1 in
  ∃ reps w',
    Append Addr errors_New c key value w =
      (Returned (if decide (tally acked reps < W c)
                 then (false, addresses Addr acked reps, Some (errors_New "write failed"))
                 else (true, addresses Addr acked reps, None)),
       w', flat_map (append_trace key value) reps) ∧
    map reply_host reps `prefix_of` hosts ∧
    stops_at (write_quorum c) (length hosts) reps.
Proof.
  unfold Append, mbind, M_bind. rewrite bind_run. unfold hostsByKey at 1.
  destruct (GetHostsByKey key w) as [hosts w0]. cbn [fst]. rewrite bind_run.
  pose proof (for_range_rule (Append_body Addr c key value) hosts
                _ _ _ _ (Append_body_step c key value hosts)
                (mkWriteVars 0 []) w0 (write_inv_init c _)) as Hloop.
  destruct (for_range (Append_body Addr c key value) 0 hosts (mkWriteVars 0 []) w0)
    as [[[[v|[]]|] w1] evs]; cbn in Hloop; [|by destruct Hloop as (? & _ & [])].
  apply write_walk_post in Hloop as (reps & -> & Hpre & Hstop & Hsuc & Htg).
  exists reps, w1. rewrite write_result_run. cbn [ended].
  rewrite Hsuc, Htg, app_nil_r. done.
Qed.

(** C9.  [Append] records nothing but its appends: no feedback goes to the
    scheduler, whether a backend acknowledged or failed.  Otherwise it
    has the shape of [Set]: it stops exactly when the success count has
    reached [W] with at least [N] candidates attempted, and returns
    [ok = false] with the write-failure error if and only if fewer than
    [W] of the contacted backends acknowledged. *)
Theorem Append_sends_no_feedback c key value w :
  let run := Append Addr errors_New c key value w in
  let hosts := (GetHostsByKey key w).1 in
  let reps := append_replies (calls run) in
  Forall (λ e, is_feedback e = false) (calls run) ∧
  calls run = flat_map (append_trace key value) reps ∧
  map reply_host reps `prefix_of` hosts ∧
  stops_at (write_quorum c) (length hosts) reps ∧
  ∃ ok targets err,
    outcome run = Returned (ok, targets, err) ∧
    targets = addresses Addr acked reps ∧
    (tally acked reps < W c ↔ ok = false ∧ err = Some (errors_New "write failed")) ∧
    (W c ≤ tally acked reps ↔ ok = true ∧ err = None).
Proof.
  intros run hosts reps. subst run hosts reps.
  destruct (Append_run c key value w) as (reps & w' & -> & Hpre & Hstop).
  unfold calls, outcome. cbn [fst snd]. rewrite append_replies_trace.
  split_and!; try done; [apply append_trace_no_feedback|].
  case_decide; eexists _, _, _; (split; [reflexivity|]); (split; [reflexivity|]);
    split; (split; [intros ?; first [lia | done] | intros [? ?]; first [lia | done]]).
Qed.

End Writes.

(** ** Delete *)

Lemma last_error_snoc {A} (reps : list (Reply A)) (rep : Reply A) :
  last_error (reps ++ [rep]) =
  match reply_err rep with Some e => Some e | None => last_error reps end.
Proof.
  unfold last_error. rewrite omap_app. cbn.
  destruct (reply_err rep); [by rewrite last_snoc | by rewrite app_nil_r].
Qed.

Lemma last_error_failed {A} (reps : list (Reply A)) :
  0 < tally failed reps → is_Some (last_error reps).
Proof.
  induction reps as [|[[h a] [e|]] reps IH] using rev_ind; [done| |].
  - intros _. rewrite last_error_snoc. by eexists.
  - rewrite tally_snoc, last_error_snoc. cbn.
    case_decide as Hf; [by destruct Hf|]. intros. apply IH. lia.
Qed.

Lemma delete_replies_trace key (reps : list (Reply bool)) :
  delete_replies (flat_map (delete_trace key) reps) = reps.
Proof.
  induction reps as [|[[h ok] e] reps IH]; [done|].
  cbn [flat_map]. unfold delete_replies in *. by rewrite omap_app, IH.
Qed.

Lemma Delete_body_step c key hosts done x rest v w evs :
  hosts = done ++ x :: rest → delete_inv Addr c key done v evs →
  match Delete_body Addr c key (length done) x v w with
  | (Returned (Next s'), _, e) => delete_inv Addr c key (done ++ [x]) s' (evs ++ e)
  | (Returned (Break s'), _, e) => delete_brk Addr c key (done ++ [x]) s' (evs ++ e)
  | (Returned (Return r), _, e) => no_return (done ++ [x]) r (evs ++ e)
  | (Panicked, _, e) => no_panic (done ++ [x]) (evs ++ e)
  end.
Proof.
  intros Hh (reps & (-> & <- & Hnb & Hsuc & Hec & Htg & Herr) & Hq).
  unfold Delete_body, mbind, M_bind, bind, hostDelete, mret, M_ret, ret.
  destruct (host_Delete x key w) as [[ok e] w1] eqn:Hs.
  set (rep := (x, ok, e) : Reply bool).
  assert (Hwalk : ∀ v',
    d_suc v' = d_suc v + (if decide (acked rep) then 1 else 0) →
    d_err_count v' = d_err_count v + (if decide (failed rep) then 1 else 0) →
    d_targets v' = d_targets v ++ (if decide (acked rep) then [Addr x] else []) →
    d_err v' = match e with Some e' => Some e' | None => d_err v end →
    delete_walked Addr c key (map reply_host reps ++ [x]) v'
      (flat_map (delete_trace key) reps ++ delete_trace key rep) (reps ++ [rep])).
  { intros v' H1 H2 H3 H4. split_and!.
    - rewrite flat_map_app. cbn. by rewrite ?app_nil_r.
    - by rewrite map_app.
    - by apply never_before_snoc.
    - by rewrite tally_snoc, H1, Hsuc.
    - by rewrite tally_snoc, H2, Hec.
    - by rewrite addresses_snoc, H3, Htg.
    - by rewrite last_error_snoc, H4, Herr. }
  assert (Hqq : delete_stop c (reps ++ [rep]) ↔
                N c ≤ d_suc v + (if decide (acked rep) then 1 else 0)).
  { unfold delete_stop. by rewrite tally_snoc, Hsuc. }
  destruct e as [e|]; [|destruct ok]; simpl;
    (destruct (decide (acked rep)) as [Ha|Ha];
       [try (by destruct Ha) | try (by exfalso; apply Ha)]);
    (destruct (decide (failed rep)) as [Hf|Hf];
       [try (by destruct Hf) | try (by exfalso; apply Hf)]);
    case_decide; simpl.
  all: first
    [ exists (reps ++ [rep]); split;
        [apply Hwalk; simpl; first [lia | by rewrite ?app_nil_r]|];
        split; [apply snoc_not_nil | apply Hqq; lia]
    | exists (reps ++ [rep]); split;
        [apply Hwalk; simpl; first [lia | by rewrite ?app_nil_r]|];
        intros _; rewrite Hqq; lia ].
Qed.

Lemma Delete_run c key w :
  let hosts := (GetHostsByKey key w).1 in
  ∃ reps w',
    Delete Addr c key w =
      (Returned (if decide (0 < tally acked reps ∨ tally failed reps < 2)
                 then (true, addresses Addr acked reps, None)
                 else (false, addresses Addr acked reps, last_error reps)),
       w', flat_map (delete_trace key) reps) ∧
    map reply_host reps `prefix_of` hosts ∧
    stops_at (delete_stop c) (length hosts) reps.
Proof.
  unfold Delete, mbind, M_bind. rewrite bind_run. unfold hostsByKey at 1.
  destruct (GetHostsByKey key w) as [hosts w0]. cbn [fst]. rewrite bind_run.
  assert (Hinit : @delete_inv Item Error Host Addr c key [] (mkDeleteVars 0 0 [] None) []).
  { exists []. split; [|done]. split_and!; try done. apply never_before_nil. }
  pose proof (for_range_rule (Delete_body Addr c key) hosts
                _ _ _ _ (Delete_body_step c key hosts) _ w0 Hinit) as Hloop.
  destruct (for_range (Delete_body Addr c key) 0 hosts (mkDeleteVars 0 0 [] None) w0)
    as [[[[v|[]]|] w1] evs]; cbn in Hloop; [|by destruct Hloop as (? & _ & [])].
  assert (∃ reps, evs = flat_map (delete_trace key) reps ∧
            map reply_host reps `prefix_of` hosts ∧
            stops_at (delete_stop c) (length hosts) reps ∧
            d_suc v = tally acked reps ∧ d_err_count v = tally failed reps ∧
            d_targets v = addresses Addr acked reps ∧ d_err v = last_error reps)
    as (reps & -> & Hpre & Hstop & Hsuc & Hec & Htg & Herr).
  { destruct Hloop as [(reps & (Hev & Hd & Hnb & Hrest) & Hq)
                      |(done & Hpre & reps & (Hev & Hd & Hnb & Hrest) & Hne & Hq)];
      exists reps; (split; [exact Hev|]); (split; [by rewrite Hd|]);
      (split; [|exact Hrest]).
    - apply stops_at_full; [done|]. by rewrite <- Hd, length_map.
    - by split. }
  exists reps, w1. cbn [ended]. rewrite Hsuc, Hec, Htg, Herr.
  case_decide; cbn; by rewrite app_nil_r.
Qed.

(** C4, as the code has it.  [Delete] walks the ranked backends in order
    and stops early exactly when the number of confirmed deletions [suc]
    reaches [N]; until then it keeps contacting further candidates, to
    the end of the ranking.  The number of backends attempted plays no
    part in the test. *)
Theorem Delete_stops_on_confirmed c key w :
  let run := Delete Addr c key w in
  let hosts := (GetHostsByKey key w).1 in
  let reps := delete_replies (calls run) in
  calls run = flat_map (delete_trace key) reps ∧
  map reply_host reps `prefix_of` hosts ∧
  stops_at (delete_stop c) (length hosts) reps.
Proof.
  intros run hosts reps. subst run hosts reps.
  destruct (Delete_run c key w) as (reps & w' & -> & Hpre & Hstop).
  unfold calls. cbn [snd]. by rewrite delete_replies_trace.
Qed.

(** C5.  [Delete] returns [r = true] with a nil error if and only if some
    contacted backend confirmed the deletion or fewer than two of them
    returned an error; otherwise it returns [r = false] with the error of
    the last backend that failed.  The tunables [W] and [R] play no part:
    clients that agree on [N] run alike. *)
Theorem Delete_success_rule c key w :
  let run := Delete Addr c key w in
  let reps := delete_replies (calls run) in
  (∃ r targets err,
     outcome run = Returned (r, targets, err) ∧
     targets = addresses Addr acked reps ∧
     ((0 < tally acked reps ∨ tally failed reps < 2) ↔ (r = true ∧ err = None)) ∧
     (¬ (0 < tally acked reps ∨ tally failed reps < 2) →
      r = false ∧ err = last_error reps ∧ is_Some err)) ∧
  ∀ W' R', Delete Addr (NewClient (N c) W' R') key w = run.
Proof.
  intros run reps. subst run reps. split; [|by destruct c].
  destruct (Delete_run c key w) as (reps & w' & -> & Hpre & Hstop).
  unfold calls, outcome. cbn [fst snd]. rewrite delete_replies_trace.
  case_decide as Hc; eexists _, _, _; (split; [reflexivity|]); (split; [reflexivity|]).
  - split; [done|]. intros Hn. by destruct Hn.
  - split; [split; [done | by intros [[=] _]]|].
    intros _. split_and!; try done. apply last_error_failed. lia.
Qed.

(** ** Incr *)

Lemma max_counter_snoc (vals : list Z) (r : Z) :
  max_counter (vals ++ [r]) = Z.max (max_counter vals) r.
Proof.
  unfold max_counter. induction vals as [|x vals IH]; cbn; [lia|].
  rewrite IH. lia.
Qed.

Lemma max_counter_upper (vals : list Z) (v : Z) : v ∈ vals → v ≤ max_counter vals.
Proof.
  unfold max_counter. induction 1 as [|x y vals _ IH]; cbn; lia.
Qed.

Lemma max_counter_attained (vals : list Z) :
  max_counter vals ∈ vals ∨ max_counter vals = 0.
Proof.
  unfold max_counter. induction vals as [|x vals IH]; cbn; [by right|].
  destruct (Z.max_spec x (foldr Z.max 0 vals)) as [[_ ->]|[_ ->]].
  - destruct IH as [IH| ->]; [left; by right | by right].
  - left. by left.
Qed.

Lemma observed_snoc (reps : list (Reply Z)) (rep : Reply Z) :
  observed (reps ++ [rep]) =
  observed reps ++ match reply_err rep with None => [reply_val rep] | Some _ => [] end.
Proof.
  unfold observed. rewrite filter_app, map_app. destruct rep as [[h r] [e|]]; cbn.
  - by rewrite decide_False.
  - by rewrite decide_True.
Qed.

Lemma incr_replies_trace key value (reps : list (Reply Z)) :
  incr_replies (flat_map (incr_trace key value) reps) = reps.
Proof.
  induction reps as [|[[h r] e] reps IH]; [done|].
  cbn [flat_map]. unfold incr_replies in *. by rewrite omap_app, IH.
Qed.

Lemma incr_stop_snoc c (reps : list (Reply Z)) (rep : Reply Z) :
  incr_stop c (reps ++ [rep]) ↔
  reply_err rep = None ∧
  W c ≤ tally positive reps + (if decide (positive rep) then 1 else 0) ∧
  N c ≤ Z.of_nat (length reps) + 1.
Proof.
  unfold incr_stop. rewrite last_snoc, tally_snoc, length_app. cbn. split.
  - intros [(rep' & [= <-] & He) ?]. split; [done|lia].
  - intros (He & ? & ?). split; [by exists rep | lia].
Qed.

Lemma Incr_body_step c key value hosts done x rest v w evs :
  hosts = done ++ x :: rest → incr_inv Addr c key value done v evs →
  match Incr_body Addr c key value (length done) x v w with
  | (Returned (Next s'), _, e) => incr_inv Addr c key value (done ++ [x]) s' (evs ++ e)
  | (Returned (Break s'), _, e) => incr_brk Addr c key value (done ++ [x]) s' (evs ++ e)
  | (Returned (Return r), _, e) => no_return (done ++ [x]) r (evs ++ e)
  | (Panicked, _, e) => no_panic (done ++ [x]) (evs ++ e)
  end.
Proof.
  intros Hh (reps & (-> & <- & Hnb & Hres & Htg & Herr & Hsuc) & Hq).
  rewrite length_map.
  unfold Incr_body, mbind, M_bind, bind, hostIncr, mret, M_ret, ret.
  destruct (host_Incr x key value w) as [[r e] w1] eqn:Hs.
  set (rep := (x, r, e) : Reply Z).
  assert (Hwalk : ∀ v',
    i_result v' = match e with None => Z.max (i_result v) r | Some _ => i_result v end →
    i_targets v' = i_targets v ++ (if decide (positive rep) then [Addr x] else []) →
    i_err v' = match e with Some e' => Some e' | None => i_err v end →
    i_suc v' = i_suc v + (if decide (positive rep) then 1 else 0) →
    incr_walked Addr c key value (map reply_host reps ++ [x]) v'
      (flat_map (incr_trace key value) reps ++ incr_trace key value rep) (reps ++ [rep])).
  { intros v' H1 H2 H3 H4. split_and!.
    - rewrite flat_map_app. cbn. by rewrite ?app_nil_r.
    - by rewrite map_app.
    - by apply never_before_snoc.
    - rewrite observed_snoc, H1, Hres. cbn. destruct e; [by rewrite app_nil_r|].
      by rewrite max_counter_snoc.
    - by rewrite addresses_snoc, H2, Htg.
    - by rewrite last_error_snoc, H3, Herr.
    - by rewrite tally_snoc, H4, Hsuc. }
  pose proof (incr_stop_snoc c reps rep) as Hqq.
  rewrite <- Hsuc in Hqq.
  destruct e as [e|]; simpl.
  - (* err = e; continue *)
    destruct (decide (positive rep)) as [Ha|Ha]; [by destruct Ha|].
    exists (reps ++ [rep]). split.
    + apply Hwalk; simpl; first [lia | by rewrite ?app_nil_r | done].
    + intros _. rewrite Hqq. by intros [? _].
  - destruct (decide (positive rep)) as [Ha|Ha];
      (destruct (decide (0 < r)) as [Hr|Hr];
         [try (by exfalso; apply Ha) | try (by destruct Ha; cbn in *; lia)]);
      case_decide; case_decide; simpl.
    all: first
      [ exists (reps ++ [rep]); split;
          [apply Hwalk; simpl; first [lia | by rewrite ?app_nil_r | done]|];
          split; [apply snoc_not_nil | apply Hqq; split; [done|lia]]
      | exists (reps ++ [rep]); split;
          [apply Hwalk; simpl; first [lia | by rewrite ?app_nil_r | done]|];
          intros _; rewrite Hqq; intros (_ & ? & ?); lia ].
Qed.

Lemma Incr_run c key value w :
  let hosts := (GetHostsByKey key w).1 in
  ∃ reps w',
    Incr Addr c key value w =
      (Returned (max_counter (observed reps), addresses Addr positive reps,
                 if decide (0 < max_counter (observed reps)) then None
                 else last_error reps),
       w', flat_map (incr_trace key value) reps) ∧
    map reply_host reps `prefix_of` hosts ∧
    stops_at (incr_stop c) (length hosts) reps.
Proof.
  unfold Incr, mbind, M_bind. rewrite bind_run. unfold hostsByKey at 1.
  destruct (GetHostsByKey key w) as [hosts w0]. cbn [fst]. rewrite bind_run.
  assert (Hinit : @incr_inv Item Error Host Addr c key value []
                    (mkIncrVars 0 [] None 0) []).
  { exists []. split; [|done]. split_and!; try done. apply never_before_nil. }
  pose proof (for_range_rule (Incr_body Addr c key value) hosts
                _ _ _ _ (Incr_body_step c key value hosts) _ w0 Hinit) as Hloop.
  destruct (for_range (Incr_body Addr c key value) 0 hosts (mkIncrVars 0 [] None 0) w0)
    as [[[[v|[]]|] w1] evs]; cbn in Hloop; [|by destruct Hloop as (? & _ & [])].
  assert (∃ reps, evs = flat_map (incr_trace key value) reps ∧
            map reply_host reps `prefix_of` hosts ∧
            stops_at (incr_stop c) (length hosts) reps ∧
            i_result v = max_counter (observed reps) ∧
            i_targets v = addresses Addr positive reps ∧
            i_err v = last_error reps ∧ i_suc v = tally positive reps)
    as (reps & -> & Hpre & Hstop & Hres & Htg & Herr & Hsuc).
  { destruct Hloop as [(reps & (Hev & Hd & Hnb & Hrest) & Hq)
                      |(done & Hpre & reps & (Hev & Hd & Hnb & Hrest) & Hne & Hq)];
      exists reps; (split; [exact Hev|]); (split; [by rewrite Hd|]);
      (split; [|exact Hrest]).
    - apply stops_at_full; [done|]. by rewrite <- Hd, length_map.
    - by split. }
  exists reps, w1. cbn [ended]. rewrite Hres, Htg, Herr.
  cbn. by rewrite app_nil_r.
Qed.

(** C8.  [Incr] returns the greatest counter value observed among the
    backends it contacted, where the values observed are those returned
    without an error and the greatest is taken from the initial result
    0: it bounds every observed value, and is one of them as soon as one
    of them is not negative.  A backend counts as a success (it is
    recorded as a target, and it counts in the stop test against [W])
    only when it returned a value [> 0] without an error.  The returned
    error is nil whenever the result is positive, whatever the number of
    successes; otherwise it is the error of the last backend that
    failed. *)
Theorem Incr_returns_maximum c key value w :
  let run := Incr Addr c key value w in
  let hosts := (GetHostsByKey key w).1 in
  let reps := incr_replies (calls run) in
  let vals := observed reps in
  calls run = flat_map (incr_trace key value) reps ∧
  map reply_host reps `prefix_of` hosts ∧
  stops_at (incr_stop c) (length hosts) reps ∧
  ∃ result targets err,
    outcome run = Returned (result, targets, err) ∧
    result = max_counter vals ∧
    (∀ v, v ∈ vals → v ≤ result) ∧
    (result ∈ vals ∨ result = 0) ∧
    ((∃ v, v ∈ vals ∧ 0 ≤ v) → result ∈ vals) ∧
    targets = addresses Addr positive reps ∧
    (0 < result → err = None) ∧
    (result ≤ 0 → err = last_error reps).
Proof.
  intros run hosts reps vals. subst run hosts reps vals.
  destruct (Incr_run c key value w) as (reps & w' & -> & Hpre & Hstop).
  unfold calls, outcome. cbn [fst snd]. rewrite incr_replies_trace.
  split; [done|]. split; [done|]. split; [done|].
  eexists _, _, _. split; [reflexivity|]. split; [reflexivity|].
  split; [apply max_counter_upper|]. split; [apply max_counter_attained|].
  split.
  { intros (v & Hv & Hpos). destruct (max_counter_attained (observed reps)) as [?|H0]; [done|].
    pose proof (max_counter_upper _ _ Hv). assert (v = 0) as -> by lia. by rewrite H0. }
  split; [reflexivity|].
  split; intros ?; case_decide; first [done | lia].
Qed.

(** ** getMulti *)

Lemma merged_snoc (reps : list (Reply (gmap string ItemPtr))) rep :
  merged (reps ++ [rep]) = reply_val rep ∪ merged reps.
Proof. unfold merged. by rewrite foldl_app. Qed.

Lemma multi_quorum_snoc c (reps : list (Reply (gmap string ItemPtr))) rep :
  multi_quorum c (reps ++ [rep]) ↔
  N c ≤ Z.of_nat (length reps) + 1 ∧
  R c ≤ answered reps + match reply_err rep with None => 1 | Some _ => 0 end.
Proof. unfold multi_quorum. rewrite answered_snoc, length_app. cbn. lia. Qed.

Lemma getMulti_body_step c need hosts done x rest v w evs :
  hosts = done ++ x :: rest → multi_inv Addr c need done v evs →
  match getMulti_body Addr c need (length done) x v w with
  | (Returned (Next s'), _, e) => multi_inv Addr c need (done ++ [x]) s' (evs ++ e)
  | (Returned (Break s'), _, e) => multi_brk Addr c need (done ++ [x]) s' (evs ++ e)
  | (Returned (Return r), _, e) => no_return (done ++ [x]) r (evs ++ e)
  | (Panicked, _, e) => no_panic (done ++ [x]) (evs ++ e)
  end.
Proof.
  intros Hh (Hd & Hkeys & Hrs & Hsuc & Htg & Herr & Hnb & Hq).
  set (reps := multi_replies evs) in *.
  assert (Hlen : length done = length reps) by (by rewrite <- Hd, length_map).
  unfold getMulti_body, mbind, M_bind, bind, now, hostGetMulti, feedback, index0,
    mret, M_ret, ret, panic.
  destruct (m_keys v) as [|k0 ks] eqn:Hk; [done|].
  destruct (host_GetMulti x (k0 :: ks) w) as [[r e] w1] eqn:Hs.
  set (rep := (x, r, e) : Reply (gmap string ItemPtr)).
  pose proof (multi_quorum_snoc c reps rep) as Hqq. rewrite <- Hlen, <- Hsuc in Hqq.
  assert (Hreps : ∀ evs', multi_replies evs' = [rep] →
            multi_replies (evs ++ evs') = reps ++ [rep]).
  { intros evs' He. unfold multi_replies in *. by rewrite omap_app, He. }
  assert (Hnb' : never_before (multi_quorum c) (reps ++ [rep])).
  { apply never_before_snoc; [done|]. intros Hne. by apply Hq. }
  assert (Hm : merged (reps ++ [rep]) = r ∪ m_rs v) by (by rewrite merged_snoc, Hrs).
  assert (Ht : addresses Addr replied (reps ++ [rep]) =
               m_targets v ++ match e with None => [Addr x] | Some _ => [] end).
  { rewrite addresses_snoc, Htg. destruct e; cbn; [by rewrite decide_False|].
    by rewrite decide_True. }
  assert (He : last_error (reps ++ [rep]) =
               match e with Some e' => Some e' | None => m_err v end).
  { by rewrite last_error_snoc, Herr. }
  assert (Hmap : map reply_host (reps ++ [rep]) = done ++ [x]) by (by rewrite map_app, Hd).
  pose proof (snoc_not_nil reps rep) as Hne.
  destruct e as [e|]; simpl in *; repeat case_decide; simpl;
    unfold multi_inv, multi_brk; cbn zeta; rewrite Hreps by reflexivity;
    rewrite ?Hm, ?Ht, ?He, ?app_nil_r.
  all: split_and!; try done; try tauto; simpl.
  all: try (rewrite answered_snoc; cbn; lia).
  all: try match goal with
       | Hx : length ?l ≠ 0%nat |- ?l ≠ [] => intros Hnil; apply Hx; by rewrite Hnil
       end.
  all: try (intros _; split; [rewrite Hqq; lia | done]).
  all: first
    [ left; split_and!; [done | apply Hqq; lia | done | done]
    | right; split_and!; [by left | done | done]
    | right; split_and!; [right; rewrite Hqq; lia | done | done] ].
Qed.

Lemma size_list_to_set_le (l : list string) :
  (size (list_to_set l : gset string) ≤ length l)%nat.
Proof.
  induction l as [|x l IH]; cbn; [by rewrite size_empty|].
  rewrite size_union_alt, size_singleton.
  assert (Hsub : (list_to_set l : gset string) ∖ {[x]} ⊆ list_to_set l).
  { intros y Hy. by apply elem_of_difference in Hy as [? _]. }
  apply subseteq_size in Hsub. lia.
Qed.

Lemma size_missing_key (m : gmap string ItemPtr) (keys : list string) (k : string) :
  (∀ k', is_Some (m !! k') → k' ∈ keys) → k ∈ keys → m !! k = None →
  (size m < length keys)%nat.
Proof.
  intros Hin Hk Hnone. rewrite <- (size_dom (D := gset string)).
  pose proof (size_list_to_set_le keys).
  enough (size (dom m) < size (list_to_set keys : gset string))%nat by lia.
  apply subset_size. split.
  - intros k' Hk'%elem_of_dom. apply elem_of_list_to_set. by apply Hin.
  - intros Hsub. assert (k ∈ dom m) as Hd.
    { apply Hsub. by apply elem_of_list_to_set. }
    apply elem_of_dom in Hd as [? ?]. congruence.
Qed.

Lemma merged_within (keys : list string) (reps : list (Reply (gmap string ItemPtr))) :
  Forall (answers_within keys) reps →
  ∀ k, is_Some (merged reps !! k) → k ∈ keys.
Proof.
  induction reps as [|rep reps IH] using rev_ind; intros Hall k.
  - unfold merged. cbn. rewrite lookup_empty. by intros [? ?].
  - apply Forall_app in Hall as [Hreps Hrep]. inversion_clear Hrep as [|? ? Hr _].
    rewrite merged_snoc, lookup_union_is_Some. intros [?|?]; [by apply Hr | by apply IH].
Qed.

Lemma getMulti_run c k0 ks w :
  let keys := k0 :: ks in
  let hosts := (GetHostsByKey k0 w).1 in
  ∃ targets err w' evs,
    let reps := multi_replies evs in
    getMulti Addr c keys w = (Returned (merged reps, targets, err), w', evs) ∧
    map reply_host reps `prefix_of` hosts ∧
    never_before (multi_quorum c) reps ∧
    (reps ≠ [] → multi_quorum c reps → size (merged reps) ≠ length keys →
     targets = [] ∧ err = None) ∧
    (¬ (reps ≠ [] ∧ multi_quorum c reps ∧ size (merged reps) ≠ length keys) →
     targets = addresses Addr replied reps) ∧
    (merged reps ≠ ∅ → err = None).
Proof.
  intros keys hosts. subst keys hosts.
  unfold getMulti, mbind, M_bind. rewrite bind_run. cbn [index0 mret M_ret ret].
  rewrite bind_run. unfold hostsByKey at 1.
  destruct (GetHostsByKey k0 w) as [hosts w0]. cbn [fst]. rewrite bind_run.
  assert (Hinit : @multi_inv Item Error Host Addr c (length (k0 :: ks)) []
                    (mkMultiVars (k0 :: ks) ∅ [] None 0) []).
  { split_and!; try done. apply never_before_nil. }
  pose proof (for_range_rule (getMulti_body Addr c (length (k0 :: ks))) hosts
                _ _ _ _ (getMulti_body_step c _ hosts) _ w0 Hinit) as Hloop.
  destruct (for_range (getMulti_body Addr c (length (k0 :: ks))) 0 hosts
              (mkMultiVars (k0 :: ks) ∅ [] None 0) w0)
    as [[[[v|[]]|] w1] evs]; cbn in Hloop; [|by destruct Hloop as (? & _ & [])].
  cbn [ended]. eexists _, _, w1, evs. cbn zeta.
  assert (Hrs : m_rs v = merged (multi_replies evs)).
  { destruct Hloop as [Hi|(? & _ & Hb)]; [apply Hi | apply Hb]. }
  rewrite Hrs. cbn. rewrite app_nil_r. split; [reflexivity|].
  assert (Hsz : merged (multi_replies evs) ≠ ∅ →
                (0 < size (merged (multi_replies evs)))%nat).
  { intros Hne%map_size_non_empty_iff. lia. }
  destruct Hloop as [(Hd & _ & _ & _ & Htg & Herr & Hnb & Hq)
                    |(done & Hpre & Hd & Hne & _ & Hnb & Hcase)].
  - split; [by rewrite Hd|]. split; [done|]. split_and!.
    + intros Hne Hqu. by destruct (Hq Hne).
    + intros _. exact Htg.
    + intros Hne. by rewrite decide_True by auto.
  - split; [by rewrite Hd|]. split; [done|].
    destruct Hcase as [(Hs & Hqu & Htg & Herr)|(Hs & Htg & Herr)]; split_and!.
    + intros _ _ _. split; [done|]. rewrite Herr. by case_decide.
    + intros Hn. exfalso. apply Hn. done.
    + intros ?. rewrite Herr. by case_decide.
    + intros _ Hqu Hsize. tauto.
    + intros _. exact Htg.
    + intros Hne'. by rewrite decide_True by auto.
Qed.

(** C7.  In [getMulti] on a non-empty batch, the walk never goes on once
    at least [N] backends were attempted and at least [R] of them
    answered without an error.  When it ends on that test with keys
    still missing (the result map holds a number of entries other than
    the number of keys requested, which is how the code tests it; for
    backends that answer only for keys they were asked, that is the case
    whenever a requested key is missing), the error is nil and the target
    list is empty.  In every case, a non-empty result map, and so any
    resolved requested key, comes with a nil error. *)
Theorem getMulti_partial_quorum c k0 ks w :
  let keys := k0 :: ks in
  let run := getMulti Addr c keys w in
  let hosts := (GetHostsByKey k0 w).1 in
  let reps := multi_replies (calls run) in
  ∃ rs targets err,
    outcome run = Returned (rs, targets, err) ∧
    rs = merged reps ∧
    map reply_host reps `prefix_of` hosts ∧
    never_before (multi_quorum c) reps ∧
    (reps ≠ [] → multi_quorum c reps → size rs ≠ length keys →
     targets = [] ∧ err = None) ∧
    (reps ≠ [] → multi_quorum c reps → Forall (answers_within keys) reps →
     (∃ k, k ∈ keys ∧ rs !! k = None) → targets = [] ∧ err = None) ∧
    (rs ≠ ∅ → err = None) ∧
    (∀ k, k ∈ keys → is_Some (rs !! k) → err = None).
Proof.
  intros keys run hosts reps. subst keys run hosts reps.
  destruct (getMulti_run c k0 ks w)
    as (targets & err & w' & evs & -> & Hpre & Hnb & Hquo & _ & Herr).
  unfold calls, outcome. cbn [fst snd].
  exists (merged (multi_replies evs)), targets, err. split_and!; try done.
  - intros Hne Hqu Hall (k & Hk & Hnone). apply Hquo; [done..|].
    pose proof (size_missing_key _ _ _ (merged_within _ _ Hall) Hk Hnone). lia.
  - intros k _ [x Hx]. apply Herr. intros Hm. by rewrite Hm, lookup_empty in Hx.
Qed.

(** ** GetMulti *)

Lemma concat_replicate_comm {A} (n : nat) (t : list A) :
  concat (replicate n t) ++ t = t ++ concat (replicate n t).
Proof. induction n as [|n IH]; cbn; [by rewrite app_nil_r|]. by rewrite <- app_assoc, IH. Qed.

Lemma merge_shard_fold (t : list string) (r rs : gmap string ItemPtr)
    (targets : list string) (err : error) :
  map_fold (merge_entry t) (rs, targets, err) r =
  (r ∪ rs, targets ++ concat (replicate (size r) t), err).
Proof.
  apply (map_fold_weak_ind
           (λ acc m, acc = (m ∪ rs, targets ++ concat (replicate (size m) t), err))).
  - by rewrite map_size_empty, (left_id_L ∅ (∪)), app_nil_r.
  - intros k v m acc Hk ->. cbn.
    rewrite map_size_insert_None by done. cbn.
    by rewrite <- insert_union_l, <- app_assoc, concat_replicate_comm.
Qed.

(** C10.  The merge step of a shard task of [GetMulti]: each pass under
    the lock appends the shard's whole target list to the merged targets
    as they are at that moment, and on a shard result with a nil error
    there is one pass for every key of the shard's result map, so that
    an address is repeated once per resolved key; on a shard result
    with no key, or with an error, the merged targets are left as they
    were, whatever backends the shard contacted.  The task of a
    non-empty shard is this merge step applied to the result of
    [getMulti]. *)
Theorem GetMulti_merges_targets_per_key c i k0 ks
    (rs : gmap string ItemPtr) (targets : list string) (err : error) w :
  (∀ t k v (acc : gmap string ItemPtr * list string * error),
     (merge_entry t k v acc).1.2 = acc.1.2 ++ t) ∧
  (∀ r t e,
     (merge_shard (r, t, e) (rs, targets, err)).1.2 =
     targets ++ match e with
                | None => concat (replicate (size r) t)
                | Some _ => []
                end) ∧
  (∀ r t e, size r = 0%nat ∨ e ≠ None →
     (merge_shard (r, t, e) (rs, targets, err)).1.2 = targets) ∧
  ∃ r t e w' evs,
    getMulti Addr c (k0 :: ks) w = (Returned (r, t, e), w', evs) ∧
    GetMulti_body Addr c i (k0 :: ks) (rs, targets, err) w =
      (Returned (Next (merge_shard (r, t, e) (rs, targets, err))), w', evs).
Proof.
  assert (Hm : ∀ (r : gmap string ItemPtr) (t : list string) (e : error),
     (merge_shard (r, t, e) (rs, targets, err)).1.2 =
     targets ++ match e with
                | None => concat (replicate (size r) t)
                | Some _ => []
                end).
  { intros r t [e|]; cbn; [by rewrite app_nil_r|]. by rewrite merge_shard_fold. }
  split; [by intros t k v [[? ?] ?]|]. split; [exact Hm|]. split.
  - intros r t e Hz. rewrite Hm. destruct e as [e|]; [by rewrite app_nil_r|].
    destruct Hz as [->|?]; [|done]. cbn. by rewrite app_nil_r.
  - destruct (getMulti_run c k0 ks w) as (t & e & w' & evs & Hrun & _).
    cbn zeta in Hrun. eexists _, t, e, w', evs. split; [exact Hrun|].
    unfold GetMulti_body. rewrite decide_True by (cbn; lia).
    unfold mbind, M_bind. rewrite bind_run, Hrun. cbn. by rewrite app_nil_r.
Qed.

(** * Further properties *)

(** ** Get: the exits *)

Lemma last_reply_last (reps : list (Reply ItemPtr)) r (e : Error) :
  last_reply reps = (r, Some e) → ∃ h, last reps = Some (h, r, Some e).
Proof.
  unfold last_reply. destruct (last reps) as [[[h r'] e']|]; [|done].
  cbn. intros [= -> ->]. by exists h.
Qed.

(** A non-nil error comes out of [Get] only through the exit below the
    loop: every ranked backend was contacted, the miss test did not hold
    at the end, the target list is empty, and the value and the error
    returned are those of the last backend of the ranking. *)
Theorem Get_error_means_exhausted c key w r targets (e : Error) :
  let run := Get Addr c key w in
  let hosts := (GetHostsByKey key w).1 in
  let reps := get_replies (calls run) in
  outcome run = Returned (r, targets, Some e) →
  targets = [] ∧ map reply_host reps = hosts ∧ ¬ miss_quorum c reps ∧
  ∃ h, last reps = Some (h, r, Some e).
Proof.
  intros run hosts reps. subst run hosts reps. pose proof (Get_run c key w) as Hrun.
  cbn zeta in Hrun. set (hosts := (GetHostsByKey key w).1) in *.
  destruct (Get Addr c key w) as [[[res|] w1] evs]; unfold calls, outcome; cbn [fst snd];
    [|done].
  intros [= ->].
  destruct Hrun as [(v & Hv & [(reps & Hw & Hq & _ & Htg & Hlast)
                              |(done & Hpre & reps & Hw & _ & _ & _ & _ & _ & He)])
                   |(done & Hpre & reps & h & val & t & _ & _ & _ & _ & [=])].
  - injection Hv as -> -> He. destruct Hw as (-> & Hd & _). rewrite get_replies_trace.
    rewrite <- He in Hlast. destruct (last_reply_last _ _ _ (eq_sym Hlast)) as [h Hh].
    split_and!; try done; [|by exists h].
    apply Hq. intros ->. done.
  - injection Hv as _ _ He'. congruence.
Qed.

(** When the backends follow the convention that an error comes with a
    nil value, [Get] returns a value exactly when the last backend it
    contacted served it, and then that backend is the only target and the
    error is nil. *)
Theorem Get_value_iff_served c key w r targets err (val : Item) :
  let run := Get Addr c key w in
  let reps := get_replies (calls run) in
  Forall (λ rep, reply_err rep ≠ None → reply_val rep = None) reps →
  outcome run = Returned (r, targets, err) →
  r = Some val ↔
  ∃ h, last reps = Some (h, Some val, None) ∧ targets = [Addr h] ∧ err = None.
Proof.
  intros run reps. subst run reps. pose proof (Get_run c key w) as Hrun.
  cbn zeta in Hrun. set (hosts := (GetHostsByKey key w).1) in *.
  destruct (Get Addr c key w) as [[[res|] w1] evs]; unfold calls, outcome; cbn [fst snd];
    [|done].
  intros Hconv [= ->].
  assert (Hunserved : ∀ reps : list (Reply ItemPtr),
    Forall (λ rep, reply_err rep ≠ None → reply_val rep = None) reps →
    Forall (λ rep, ¬ found rep) reps →
    (last_reply reps).1 ≠ Some val ∧ ∀ h, last reps ≠ Some (h, Some val, None)).
  { intros reps Hc Hnf. unfold last_reply.
    destruct (last reps) as [[[h' r'] e']|] eqn:Hl; [|done].
    apply last_Some in Hl as [l' ->].
    apply Forall_app in Hc as [_ Hc]. inversion_clear Hc as [|? ? Hc' _].
    apply Forall_app in Hnf as [_ Hnf]. inversion_clear Hnf as [|? ? Hnf' _].
    unfold found in Hnf'. cbn in *. split.
    - intros ->. destruct e' as [e'|]; [by specialize (Hc' ltac:(done))|].
      apply Hnf'. by split; [eexists|].
    - intros h [= -> -> ->]. apply Hnf'. by split; [eexists|]. }
  destruct Hrun as [(v & Hv & [(reps & Hw & Hq & _ & Htg & Hlast)
                              |(done & Hpre & reps & Hw & _ & _ & _ & _ & Hr & He)])
                   |(done & Hpre & reps & h & val' & t & Hw & _ & _ & -> & Hres)].
  - injection Hv as -> -> ->. destruct Hw as (-> & _ & Hnf & _).
    rewrite get_replies_trace in *. destruct (Hunserved reps Hconv Hnf) as [H1 H2].
    rewrite <- Hlast in H1. cbn in H1. split; [done|]. intros (h & Hh & _). by destruct (H2 h).
  - injection Hv as -> -> ->. destruct Hw as (-> & _ & Hnf & _).
    rewrite get_replies_trace in *. destruct (Hunserved reps Hconv Hnf) as [H1 H2].
    rewrite <- Hr in H1. split; [done|]. intros (h' & Hh & _). by destruct (H2 h').
  - injection Hres as -> -> ->. rewrite get_replies_served, last_snoc. split.
    + intros [= ->]. by exists h.
    + by intros (h' & [= _ ->] & _).
Qed.

Lemma feedbacks_get_trace key (reps : list (Reply ItemPtr)) :
  feedbacks (flat_map (get_trace key) reps) = map (fault_feedback key) (filter failed reps).
Proof.
  unfold feedbacks. induction reps as [|[[h r] [e|]] reps IH]; [done| |].
  - cbn [flat_map]. rewrite filter_app, IH. rewrite filter_cons_True by (by intros [=]). done.
  - cbn [flat_map]. rewrite filter_app, IH. rewrite filter_cons_False by (by intros []). done.
Qed.

(** In a run of [Get] that serves no value, the recorded calls are the
    reads, each failed one followed by its [-10] fault feedback: a
    backend that answers a miss without an error gets no feedback, and no
    latency score is sent. *)
Theorem Get_unserved_feedback c key w :
  let run := Get Addr c key w in
  let reps := get_replies (calls run) in
  Forall (λ rep, ¬ found rep) reps →
  calls run = flat_map (get_trace key) reps ∧
  feedbacks (calls run) = map (fault_feedback key) (filter failed reps).
Proof.
  intros run reps. subst run reps. pose proof (Get_run c key w) as Hrun.
  cbn zeta in Hrun. set (hosts := (GetHostsByKey key w).1) in *.
  assert (Hshape : (∃ reps, (Get Addr c key w).2 = flat_map (get_trace key) reps) ∨
                   ∃ reps h val t, (Get Addr c key w).2 = served_trace key hosts reps h val t).
  { destruct (Get Addr c key w) as [[[res|] w1] evs]; cbn [snd].
    - destruct Hrun as [(v & _ & [(reps & (-> & _) & _)|(done & _ & reps & (-> & _) & _)])
                       |(done & _ & reps & h & val & t & _ & _ & _ & -> & _)]; eauto 6.
    - destruct Hrun as (done & _ & reps & (-> & _) & _). eauto. }
  unfold calls. destruct Hshape as [(reps & ->)|(reps & h & val & t & ->)].
  - rewrite get_replies_trace. intros _. split; [done|]. apply feedbacks_get_trace.
  - rewrite get_replies_served. intros Hnf. apply Forall_app in Hnf as [_ Hnf].
    inversion_clear Hnf as [|? ? Hf _]. exfalso. apply Hf. by split; [eexists|].
Qed.

(** ** Incr and Delete: results, errors and bounds *)

Lemma length_addresses {A} (P : Reply A → Prop) `{∀ x, Decision (P x)}
    (reps : list (Reply A)) :
  Z.of_nat (length (addresses Addr P reps)) = tally P reps.
Proof. unfold addresses, tally. by rewrite length_map. Qed.

Lemma addresses_nil_iff {A} (P : Reply A → Prop) `{∀ x, Decision (P x)}
    (reps : list (Reply A)) :
  addresses Addr P reps = [] ↔ tally P reps = 0.
Proof.
  rewrite <- length_addresses. destruct (addresses Addr P reps); cbn; [done|].
  split; [done | lia].
Qed.

Lemma max_counter_nonneg (vals : list Z) : 0 ≤ max_counter vals.
Proof. unfold max_counter. induction vals as [|x vals IH]; cbn; lia. Qed.

Lemma max_counter_positive (reps : list (Reply Z)) :
  0 < max_counter (observed reps) ↔ 0 < tally positive reps.
Proof.
  induction reps as [|[[h r] [e|]] reps IH] using rev_ind.
  - unfold max_counter, tally. cbn. lia.
  - rewrite observed_snoc, tally_snoc. cbn [reply_err reply_val fst snd].
    rewrite app_nil_r. case_decide as Hp; [by destruct Hp|].
    rewrite Z.add_0_r. exact IH.
  - rewrite observed_snoc, tally_snoc. cbn [reply_err reply_val fst snd].
    rewrite max_counter_snoc.
    pose proof (max_counter_nonneg (observed reps)).
    assert (0 ≤ tally positive reps) by (unfold tally; lia).
    case_decide as Hp; unfold positive in Hp; cbn in Hp; [lia|].
    assert (r ≤ 0) by (destruct (decide (0 < r)); [by destruct Hp|lia]).
    split; intros Hx.
    + assert (0 < tally positive reps) by (apply IH; lia). lia.
    + assert (0 < max_counter (observed reps)) by (apply IH; lia). lia.
Qed.

Lemma last_error_none {A} (reps : list (Reply A)) :
  last_error reps = None ↔ Forall replied reps.
Proof.
  clear Addr sch be. induction reps as [|[[h a] [e|]] reps IH] using rev_ind; [done| |].
  - rewrite last_error_snoc. cbn. split; [done|].
    intros [_ Hl]%Forall_app. by inversion_clear Hl.
  - rewrite last_error_snoc, Forall_app, IH. cbn. split; [|tauto].
    intros ?. split; [done|]. by repeat constructor.
Qed.

(** [Incr] never returns a negative result; the result is positive
    exactly when the target list is not empty; and the error returned is
    nil exactly when there is a target or no contacted backend failed:
    otherwise it is the error of the last backend that failed. *)
Theorem Incr_result_and_error c key value w :
  let run := Incr Addr c key value w in
  let reps := incr_replies (calls run) in
  ∃ result targets err,
    outcome run = Returned (result, targets, err) ∧
    0 ≤ result ∧
    (0 < result ↔ targets ≠ []) ∧
    (err = None ↔ targets ≠ [] ∨ Forall replied reps) ∧
    (err ≠ None → err = last_error reps).
Proof.
  intros run reps. subst run reps.
  destruct (Incr_run c key value w) as (reps & w' & -> & _ & _).
  unfold calls, outcome. cbn [fst snd]. rewrite incr_replies_trace.
  eexists _, _, _. split; [reflexivity|].
  pose proof (max_counter_positive reps) as Hpos.
  pose proof (addresses_nil_iff positive reps) as Hnil.
  assert (0 ≤ tally positive reps) by (unfold tally; lia).
  assert (Htg : addresses Addr positive reps ≠ [] ↔ 0 < tally positive reps).
  { rewrite Hnil. lia. }
  split; [apply max_counter_nonneg|]. split; [by rewrite Htg|].
  case_decide as Hd.
  - split; [|done]. split; [|done]. intros _. left. apply Htg. by apply Hpos.
  - split; [|done]. rewrite last_error_none, Htg, <- Hpos. tauto.
Qed.

(** [Incr] and [Delete] record nothing but their calls on the backends,
    one per backend contacted: neither ever sends feedback to the
    scheduler. *)
Theorem Incr_Delete_send_no_feedback c key value w :
  feedbacks (calls (Incr Addr c key value w)) = [] ∧
  length (calls (Incr Addr c key value w)) =
    length (incr_replies (calls (Incr Addr c key value w))) ∧
  feedbacks (calls (Delete Addr c key w)) = [] ∧
  length (calls (Delete Addr c key w)) =
    length (delete_replies (calls (Delete Addr c key w))).
Proof.
  destruct (Incr_run c key value w) as (reps & w' & -> & _ & _).
  destruct (Delete_run c key w) as (reps' & w'' & -> & _ & _).
  unfold calls. cbn [snd]. rewrite incr_replies_trace, delete_replies_trace.
  split_and!.
  - unfold feedbacks. induction reps as [|rep reps IH]; [done|]. cbn [flat_map].
    by rewrite filter_app, IH.
  - induction reps as [|rep reps IH]; cbn; [done|]. by rewrite IH.
  - unfold feedbacks. induction reps' as [|rep reps' IH]; [done|]. cbn [flat_map].
    by rewrite filter_app, IH.
  - induction reps' as [|rep reps' IH]; cbn; [done|]. by rewrite IH.
Qed.

Lemma tally_before_stop {A} (P : A → Prop) `{∀ x, Decision (P x)}
    (stop : list A → Prop) (n : Z) (reps : list A) :
  (∀ l, ¬ stop l → tally P l < n) → never_before stop reps →
  tally P reps ≤ Z.max n 1.
Proof.
  intros Hstop Hnb. destruct reps as [|x reps _] using rev_ind.
  - unfold tally. cbn. lia.
  - rewrite tally_snoc. destruct reps as [|y reps].
    + unfold tally. cbn. case_decide; lia.
    + assert (tally P (y :: reps) < n).
      { apply Hstop, Hnb; [by exists [x] | done |].
        intros Heq. apply (f_equal length) in Heq. rewrite length_app in Heq. cbn in Heq. lia. }
      case_decide; lia.
Qed.

(** [Delete] never collects more than [N] confirmed deletions (one, when
    [N] is below one); it stops before the end of the ranking only with
    [N] of them; and it reports failure only when no backend confirmed
    and at least two failed, so that a failure always comes with an empty
    target list and a non-nil error. *)
Theorem Delete_confirms_at_most_N c key w :
  let run := Delete Addr c key w in
  let hosts := (GetHostsByKey key w).1 in
  let reps := delete_replies (calls run) in
  ∃ r targets err,
    outcome run = Returned (r, targets, err) ∧
    Z.of_nat (length targets) ≤ Z.max (N c) 1 ∧
    ((length reps < length hosts)%nat → N c ≤ Z.of_nat (length targets)) ∧
    (r = false → targets = [] ∧ 2 ≤ tally failed reps ∧ err ≠ None) ∧
    (r = true → err = None).
Proof.
  intros run hosts reps. subst run hosts reps.
  destruct (Delete_run c key w) as (reps & w' & -> & Hpre & Hnb & Hstop).
  unfold calls, outcome. cbn [fst snd]. rewrite delete_replies_trace.
  assert (Hle : tally acked reps ≤ Z.max (N c) 1).
  { apply (tally_before_stop acked (delete_stop c)); [|done].
    unfold delete_stop. intros l. lia. }
  assert (0 ≤ tally acked reps) by (unfold tally; lia).
  case_decide as Hd; eexists _, _, _; (split; [reflexivity|]);
    rewrite length_addresses; (split; [exact Hle|]);
    (split; [intros Hlt; by destruct (Hstop Hlt)|]); (split; [|done]); [done|].
  intros _. split_and!.
  - apply addresses_nil_iff. lia.
  - lia.
  - intros Hn. assert (is_Some (last_error reps)) as [? ?]; [|congruence].
    apply last_error_failed. lia.
Qed.

(** ** Set, Append, Incr: how far the walk goes *)

Lemma prefix_full {A} (l1 l2 : list A) :
  l1 `prefix_of` l2 → ¬ (length l1 < length l2)%nat → l1 = l2.
Proof. intros Hpre Hlen. apply prefix_length_eq; [done|lia]. Qed.

Lemma floor_of_stop {A} (stop : list A → Prop) (n : Z) (hosts : list Host)
    (reps : list A) (f : A → Host) :
  (∀ l, stop l → n ≤ Z.of_nat (length l)) →
  map f reps `prefix_of` hosts → stops_at stop (length hosts) reps →
  Z.min n (Z.of_nat (length hosts)) ≤ Z.of_nat (length reps).
Proof.
  intros Hstop Hpre [_ Hearly]. apply prefix_length in Hpre. rewrite length_map in Hpre.
  destruct (decide (length reps < length hosts)%nat) as [Hlt|Hge].
  - destruct (Hearly Hlt) as [_ Hs]. apply Hstop in Hs. lia.
  - lia.
Qed.

Section WriteWalks.
Context (errors_New : string → Error).

(** [Set], [Append] and [Incr] never stop before [N] backends were
    attempted, however early the [W] successes came, unless the ranking
    has fewer than [N] backends, all of which are then contacted. *)
Theorem writes_attempt_floor c key (item : ItemPtr) noreply value delta w :
  let hosts := (GetHostsByKey key w).1 in
  let floor := Z.min (N c) (Z.of_nat (length hosts)) in
  floor ≤ Z.of_nat (length (set_replies (calls (Set_ Addr errors_New c key item noreply w)))) ∧
  floor ≤ Z.of_nat (length (append_replies (calls (Append Addr errors_New c key value w)))) ∧
  floor ≤ Z.of_nat (length (incr_replies (calls (Incr Addr c key delta w)))).
Proof.
  intros hosts floor. subst hosts floor.
  destruct (Set_run errors_New c key item noreply w) as (r1 & w1 & -> & Hp1 & Hs1).
  destruct (Append_run errors_New c key value w) as (r2 & w2 & -> & Hp2 & Hs2).
  destruct (Incr_run c key delta w) as (r3 & w3 & -> & Hp3 & Hs3).
  unfold calls. cbn [snd].
  rewrite set_replies_trace, append_replies_trace, incr_replies_trace.
  split_and!.
  - apply (floor_of_stop (write_quorum c) _ _ _ reply_host); [|done..]. by intros l [_ ?].
  - apply (floor_of_stop (write_quorum c) _ _ _ reply_host); [|done..]. by intros l [_ ?].
  - apply (floor_of_stop (incr_stop c) _ _ _ reply_host); [|done..]. by intros l (_ & _ & ?).
Qed.

(** [Set] and [Append] give up only at the end of the ranking: a write
    failure means that every ranked backend was contacted and fewer than
    [W] of them acknowledged; a success comes with at least [W] targets
    and a nil error. *)
Theorem writes_fail_only_when_exhausted c key (item : ItemPtr) noreply value w :
  let hosts := (GetHostsByKey key w).1 in
  (∃ ok targets err,
     outcome (Set_ Addr errors_New c key item noreply w) = Returned (ok, targets, err) ∧
     (ok = false →
      map reply_host (set_replies (calls (Set_ Addr errors_New c key item noreply w))) = hosts ∧
      Z.of_nat (length targets) < W c ∧ err ≠ None) ∧
     (ok = true → W c ≤ Z.of_nat (length targets) ∧ err = None)) ∧
  (∃ ok targets err,
     outcome (Append Addr errors_New c key value w) = Returned (ok, targets, err) ∧
     (ok = false →
      map reply_host (append_replies (calls (Append Addr errors_New c key value w))) = hosts ∧
      Z.of_nat (length targets) < W c ∧ err ≠ None) ∧
     (ok = true → W c ≤ Z.of_nat (length targets) ∧ err = None)).
Proof.
  intros hosts. subst hosts.
  destruct (Set_run errors_New c key item noreply w) as (r1 & w1 & -> & Hp1 & Hs1).
  destruct (Append_run errors_New c key value w) as (r2 & w2 & -> & Hp2 & Hs2).
  unfold calls, outcome. cbn [fst snd].
  rewrite set_replies_trace, append_replies_trace.
  assert (Hgen : ∀ reps : list (Reply bool),
    map reply_host reps `prefix_of` (GetHostsByKey key w).1 →
    stops_at (write_quorum c) (length (GetHostsByKey key w).1) reps →
    ∃ ok targets (err : error),
      Returned (if decide (tally acked reps < W c)
                then (false, addresses Addr acked reps, Some (errors_New "write failed"))
                else (true, addresses Addr acked reps, None)) =
      Returned (ok, targets, err) ∧
      (ok = false → map reply_host reps = (GetHostsByKey key w).1 ∧
                   Z.of_nat (length targets) < W c ∧ err ≠ None) ∧
      (ok = true → W c ≤ Z.of_nat (length targets) ∧ err = None)).
  { intros reps Hpre [_ Hearly].
    case_decide as Hd; eexists _, _, _; (split; [reflexivity|]);
      rewrite length_addresses; split; try done.
    - intros _. split_and!; try done. apply prefix_full; [done|].
      intros Hlt. rewrite length_map in Hlt. destruct (Hearly Hlt) as [_ [? _]]. lia.
    - intros _. split; [lia|done]. }
  split; by apply Hgen.
Qed.

End WriteWalks.

(** ** getMulti: rounds, batches and merging *)

Lemma still_missing_empty (keys : list string) :
  still_missing (∅ : gmap string ItemPtr) keys = keys.
Proof.
  unfold still_missing. induction keys as [|k keys IH]; [done|].
  rewrite filter_cons_True by apply lookup_empty. by rewrite IH.
Qed.

Lemma still_missing_union (r rs : gmap string ItemPtr) (keys : list string) :
  still_missing (r ∪ rs) (still_missing rs keys) = still_missing (r ∪ rs) keys.
Proof.
  unfold still_missing. apply list_filter_filter_l.
  intros k Hk. by apply lookup_union_None in Hk as [_ ?].
Qed.

Lemma asked_missing_snoc keys (rounds : list Round) (rd : Round) :
  asked_missing keys rounds →
  round_batch rd = still_missing (merged (map round_reply rounds)) keys →
  asked_missing keys (rounds ++ [rd]).
Proof.
  intros Hall Hrd pre rd' post Heq.
  destruct post as [|y post _] using rev_ind.
  - apply app_inj_tail in Heq as [-> ->]. done.
  - rewrite app_comm_cons, app_assoc in Heq. apply app_inj_tail in Heq as [-> _].
    by apply (Hall pre rd' post).
Qed.

Lemma getMulti_body_rounds c keys need hosts done x rest v w evs :
  hosts = done ++ x :: rest → rounds_inv keys done v evs →
  match getMulti_body Addr c need (length done) x v w with
  | (Returned (Next s'), _, e) => rounds_inv keys (done ++ [x]) s' (evs ++ e)
  | (Returned (Break s'), _, e) => rounds_brk keys (done ++ [x]) s' (evs ++ e)
  | (Returned (Return r), _, e) => no_return (done ++ [x]) r (evs ++ e)
  | (Panicked, _, e) => no_panic (done ++ [x]) (evs ++ e)
  end.
Proof.
  intros Hh (rounds & -> & <- & Hask & Hrs & Hkeys & Hne).
  unfold getMulti_body, mbind, M_bind, bind, now, hostGetMulti, feedback, index0,
    mret, M_ret, ret, panic.
  destruct (m_keys v) as [|k0 ks] eqn:Hk; [done|].
  destruct (host_GetMulti x (k0 :: ks) w) as [[r e] w1] eqn:Hs.
  assert (Hgen : ∀ t, 
    let rd := mkRound x k0 ks r e t in
    flat_map round_trace rounds ++ round_trace rd = flat_map round_trace (rounds ++ [rd]) ∧
    map rd_host (rounds ++ [rd]) = map rd_host rounds ++ [x] ∧
    asked_missing keys (rounds ++ [rd]) ∧
    r ∪ m_rs v = merged (map round_reply (rounds ++ [rd])) ∧
    still_missing (r ∪ m_rs v) (k0 :: ks) = still_missing (r ∪ m_rs v) keys).
  { intros t rd. split_and!.
    - rewrite flat_map_app. cbn [flat_map]. by rewrite app_nil_r.
    - by rewrite map_app.
    - apply asked_missing_snoc; [done|]. unfold round_batch. cbn. by rewrite <- Hrs, <- Hkeys.
    - rewrite map_app. cbn [map]. by rewrite merged_snoc, Hrs.
    - by rewrite Hkeys, still_missing_union. }
  destruct e as [e|]; simpl in *; repeat case_decide; simpl;
    match goal with
    | |- context [Latency ?t] => destruct (Hgen t) as (G1 & G2 & G3 & G4 & G5)
    end;
    eexists; (split; [exact G1|]); (split; [exact G2|]); (split; [exact G3|]);
    try exact G4; (split; [exact G4|]); split; try exact G5.
  all: simpl.
  all: match goal with
       | Hx : length ?l ≠ 0%nat |- ?l ≠ [] => intros Hnil; apply Hx; by rewrite Hnil
       end.
Qed.

Lemma getMulti_rounds_run c k0 ks w :
  let hosts := (GetHostsByKey k0 w).1 in
  ∃ (rounds : list Round) targets err w',
    getMulti Addr c (k0 :: ks) w =
      (Returned (merged (map round_reply rounds), targets, err), w',
       flat_map round_trace rounds) ∧
    map rd_host rounds `prefix_of` hosts ∧
    asked_missing (k0 :: ks) rounds.
Proof.
  intros hosts. subst hosts.
  unfold getMulti, mbind, M_bind. rewrite bind_run. cbn [index0 mret M_ret ret].
  rewrite bind_run. unfold hostsByKey at 1.
  destruct (GetHostsByKey k0 w) as [hosts w0]. cbn [fst]. rewrite bind_run.
  assert (Hinit : @rounds_inv Item Error Host (k0 :: ks) []
                    (mkMultiVars (k0 :: ks) ∅ [] None 0) []).
  { exists []. split_and!; try done.
    - by intros [|? ?] ? ? ?.
    - symmetry. apply still_missing_empty. }
  pose proof (for_range_rule (getMulti_body Addr c (length (k0 :: ks))) hosts
                _ _ _ _ (getMulti_body_rounds c (k0 :: ks) _ hosts) _ w0 Hinit) as Hloop.
  destruct (for_range (getMulti_body Addr c (length (k0 :: ks))) 0 hosts
              (mkMultiVars (k0 :: ks) ∅ [] None 0) w0)
    as [[[[v|[]]|] w1] evs]; cbn in Hloop; [|by destruct Hloop as (? & _ & [])].
  cbn [ended].
  destruct Hloop as [(rounds & -> & Hd & Hask & Hrs & _)
                    |(dn & Hpre & rounds & -> & Hd & Hask & Hrs)];
    exists rounds; eexists _, _, w1; rewrite <- Hrs; cbn; rewrite app_nil_r;
    (split; [reflexivity|]); (split; [by rewrite Hd | exact Hask]).
Qed.

Lemma multi_replies_rounds (rounds : list Round) :
  multi_replies (flat_map round_trace rounds) = map round_reply rounds.
Proof.
  induction rounds as [|rd rounds IH]; [done|].
  cbn [flat_map map]. unfold multi_replies in *. rewrite omap_app, IH.
  by destruct rd as [h k ks r [e|] t].
Qed.

Lemma multi_batches_rounds (rounds : list Round) :
  multi_batches (flat_map round_trace rounds) = map round_batch rounds.
Proof.
  induction rounds as [|rd rounds IH]; [done|].
  cbn [flat_map map]. unfold multi_batches in *. rewrite omap_app, IH.
  by destruct rd as [h k ks r [e|] t].
Qed.

(** Every call of [getMulti] on a backend is followed by one latency
    feedback (non-fault) for that backend, and comes before it with a
    [-10] fault feedback when the call failed; both are keyed on the first
    key of the batch that was sent to the backend in that round, and
    nothing else is recorded. *)
Theorem getMulti_feedback_per_round c k0 ks w :
  let run := getMulti Addr c (k0 :: ks) w in
  let hosts := (GetHostsByKey k0 w).1 in
  ∃ rounds : list Round,
    calls run = flat_map round_trace rounds ∧
    map rd_host rounds `prefix_of` hosts ∧
    map round_reply rounds = multi_replies (calls run) ∧
    map round_batch rounds = multi_batches (calls run).
Proof.
  intros run hosts. subst run hosts.
  destruct (getMulti_rounds_run c k0 ks w) as (rounds & t & e & w' & -> & Hpre & _).
  exists rounds. unfold calls. cbn [snd].
  by rewrite multi_replies_rounds, multi_batches_rounds.
Qed.

(** [getMulti] sends the first backend the whole batch, and every later
    backend exactly the requested keys that the replies before it did
    not hold, in the order of the request; a batch sent is never empty. *)
Theorem getMulti_asks_missing_keys c k0 ks w j (batch : list string) :
  let run := getMulti Addr c (k0 :: ks) w in
  let reps := multi_replies (calls run) in
  multi_batches (calls run) !! j = Some batch →
  batch = still_missing (merged (take j reps)) (k0 :: ks) ∧ batch ≠ [] ∧
  (j = 0%nat → batch = k0 :: ks).
Proof.
  intros run reps. subst run reps.
  destruct (getMulti_rounds_run c k0 ks w) as (rounds & t & e & w' & -> & _ & Hask).
  unfold calls. cbn [snd]. rewrite multi_replies_rounds, multi_batches_rounds.
  rewrite lookup_map. intros Hj.
  destruct (rounds !! j) as [rd|] eqn:Hrd; [|done]. injection Hj as <-.
  assert (Hb : round_batch rd = still_missing (merged (take j (map round_reply rounds)))
                                  (k0 :: ks)).
  { rewrite firstn_map. apply (Hask (take j rounds) rd (drop (S j) rounds)).
    by rewrite take_drop_middle. }
  split; [done|]. split; [done|]. intros ->. rewrite Hb. apply still_missing_empty.
Qed.

Lemma first_value_snoc k (reps : list (Reply (gmap string ItemPtr))) rep :
  first_value k (reps ++ [rep]) =
  match first_value k reps with Some v => Some v | None => reply_val rep !! k end.
Proof.
  unfold first_value. rewrite omap_app, head_app. cbn.
  destruct (head _); [done|]. by destruct (reply_val rep !! k).
Qed.

Lemma asked_missing_snoc_inv keys (rounds : list Round) (rd : Round) :
  asked_missing keys (rounds ++ [rd]) →
  asked_missing keys rounds ∧
  round_batch rd = still_missing (merged (map round_reply rounds)) keys.
Proof.
  intros Hall. split.
  - intros pre rd' post ->. apply (Hall pre rd' (post ++ [rd])).
    by rewrite <- app_assoc.
  - apply (Hall rounds rd []). done.
Qed.

Lemma merged_first_value keys (rounds : list Round) :
  asked_missing keys rounds →
  Forall (λ rd, ∀ k, is_Some (rd_map rd !! k) → k ∈ round_batch rd) rounds →
  ∀ k, merged (map round_reply rounds) !! k = first_value k (map round_reply rounds) ∧
       (is_Some (merged (map round_reply rounds) !! k) → k ∈ keys).
Proof.
  induction rounds as [|rd rounds IH] using rev_ind; intros Hask Hcon k.
  - unfold merged, first_value. cbn. rewrite lookup_empty. split; [done|]. by intros [? ?].
  - apply asked_missing_snoc_inv in Hask as [Hask Hb].
    apply Forall_app in Hcon as [Hcon Hrd]. inversion_clear Hrd as [|? ? Hrd' _].
    destruct (IH Hask Hcon k) as [IHv IHk].
    rewrite map_app. cbn [map]. rewrite merged_snoc, first_value_snoc, <- IHv.
    change (reply_val (round_reply rd)) with (rd_map rd).
    destruct (rd_map rd !! k) as [v|] eqn:Hk.
    + assert (Hin : k ∈ round_batch rd) by (by apply Hrd'; rewrite Hk).
      rewrite Hb in Hin. apply list_elem_of_filter in Hin as [Hnone Hin].
      cbn beta in Hnone. rewrite Hnone. split; [|done]. by apply lookup_union_Some_l.
    + rewrite lookup_union_r by done. split; [|done].
      by destruct (merged (map round_reply rounds) !! k).
Qed.

Lemma Forall2_map_same {A B C} (P : B → C → Prop) (f : A → B) (g : A → C) (l : list A) :
  Forall2 P (map f l) (map g l) → Forall (λ x, P (f x) (g x)) l.
Proof.
  induction l as [|x l IH]; cbn; [by constructor|].
  intros H. inversion_clear H. constructor; auto.
Qed.

(** When every backend answers only for keys of the batch it was sent, a
    key once found is never asked again nor overwritten: [getMulti]
    returns for each key the value of the first backend that returned
    it, and every key of the result is a requested key. *)
Theorem getMulti_first_reply_wins c k0 ks w :
  let run := getMulti Addr c (k0 :: ks) w in
  let reps := multi_replies (calls run) in
  Forall2 (λ batch rep, ∀ k, is_Some (reply_val rep !! k) → k ∈ batch)
    (multi_batches (calls run)) reps →
  ∃ rs targets err,
    outcome run = Returned (rs, targets, err) ∧
    (∀ k, rs !! k = first_value k reps) ∧
    (∀ k, is_Some (rs !! k) → k ∈ k0 :: ks).
Proof.
  intros run reps. subst run reps.
  destruct (getMulti_rounds_run c k0 ks w) as (rounds & t & e & w' & -> & _ & Hask).
  unfold calls, outcome. cbn [fst snd]. rewrite multi_replies_rounds, multi_batches_rounds.
  intros Hcon%Forall2_map_same. eexists _, _, _. split; [reflexivity|].
  split; intros k; by destruct (merged_first_value _ _ Hask Hcon k).
Qed.

Lemma getMulti_end c k0 ks w :
  let hosts := (GetHostsByKey k0 w).1 in
  ∃ v w' evs,
    getMulti Addr c (k0 :: ks) w =
      (Returned (m_rs v, m_targets v,
                 if decide (0 < size (m_rs v))%nat then None else m_err v), w', evs) ∧
    (multi_inv Addr c (length (k0 :: ks)) hosts v evs ∨
     ∃ dn, dn `prefix_of` hosts ∧ multi_brk Addr c (length (k0 :: ks)) dn v evs).
Proof.
  intros hosts. subst hosts.
  unfold getMulti, mbind, M_bind. rewrite bind_run. cbn [index0 mret M_ret ret].
  rewrite bind_run. unfold hostsByKey at 1.
  destruct (GetHostsByKey k0 w) as [hosts w0]. cbn [fst]. rewrite bind_run.
  assert (Hinit : @multi_inv Item Error Host Addr c (length (k0 :: ks)) []
                    (mkMultiVars (k0 :: ks) ∅ [] None 0) []).
  { split_and!; try done. apply never_before_nil. }
  pose proof (for_range_rule (getMulti_body Addr c (length (k0 :: ks))) hosts
                _ _ _ _ (getMulti_body_step c _ hosts) _ w0 Hinit) as Hloop.
  destruct (for_range (getMulti_body Addr c (length (k0 :: ks))) 0 hosts
              (mkMultiVars (k0 :: ks) ∅ [] None 0) w0)
    as [[[[v|[]]|] w1] evs]; cbn in Hloop; [|by destruct Hloop as (? & _ & [])].
  cbn [ended]. exists v, w1, evs. cbn. rewrite app_nil_r. split; [reflexivity|].
  exact Hloop.
Qed.

(** [getMulti] returns a non-nil error only when it found nothing at all:
    the result map is empty, the quorum test did not hold at the end of
    the walk, the error is that of the last backend that failed, and the
    targets are the backends that answered without an error. *)
Theorem getMulti_error_means_nothing_found c k0 ks w :
  let run := getMulti Addr c (k0 :: ks) w in
  let reps := multi_replies (calls run) in
  ∃ rs targets err,
    outcome run = Returned (rs, targets, err) ∧
    (err ≠ None →
     rs = ∅ ∧ err = last_error reps ∧ ¬ multi_quorum c reps ∧
     targets = addresses Addr replied reps).
Proof.
  intros run reps. subst run reps.
  destruct (getMulti_end c k0 ks w) as (v & w' & evs & -> & Hend).
  unfold calls, outcome. cbn [fst snd]. eexists _, _, _. split; [reflexivity|].
  case_decide as Hsz; [done|]. intros Herr.
  assert (Hrs0 : size (m_rs v) = 0%nat) by lia. apply map_size_empty_iff in Hrs0.
  destruct Hend as [(Hd & _ & Hrs & _ & Htg & He & Hnb & Hq)
                   |(dn & Hpre & Hd & Hne & Hrs & Hnb & Hcase)].
  - assert (Hne : multi_replies evs ≠ []).
    { intros Hnil. rewrite Hnil in He. by rewrite He in Herr. }
    destruct (Hq Hne) as [Hnq _]. by split_and!.
  - destruct Hcase as [(_ & _ & _ & He)|([Hs|Hnq] & Htg & He)]; [done| |done].
    rewrite <- Hrs, Hrs0, map_size_empty in Hs. done.
Qed.

(** ** GetMulti: the shards *)

Lemma merge_shards_closed (ress : list (gmap string ItemPtr * list string * error)) :
  ∀ (rs : gmap string ItemPtr) (targets : list string) (err : error),
  foldl (λ acc res, merge_shard res acc) (rs, targets, err) ress =
  (foldl shard_entries rs ress, targets ++ flat_map shard_targets ress,
   match last (omap shard_error ress) with Some e => Some e | None => err end).
Proof.
  induction ress as [|[[r t] [e|]] ress IH]; intros rs targets err.
  - cbn. by rewrite app_nil_r.
  - cbn [foldl merge_shard]. rewrite IH. cbn [flat_map shard_targets shard_entries app].
    f_equal. change (omap shard_error ((r, t, Some e) :: ress))
      with (e :: omap shard_error ress).
    rewrite last_cons. by destruct (last _).
  - cbn [foldl merge_shard]. rewrite merge_shard_fold, IH.
    cbn [flat_map shard_targets shard_entries]. by rewrite app_assoc.
Qed.

Lemma GetMulti_loop c (gs : list (list string)) :
  ∀ (acc : gmap string ItemPtr * list string * error) (w : World) (i : nat),
  length (shard_results Addr c gs w) = length (filter (λ ks, (0 < length ks)%nat) gs) ∧
  ∃ w' evs,
    for_range (GetMulti_body Addr c) i gs acc w =
    (Returned (inl (foldl (λ a res, merge_shard res a) acc (shard_results Addr c gs w))),
     w', evs).
Proof.
  induction gs as [|ks gs IH]; intros acc w i.
  - split; [done|]. by eexists _, _.
  - rewrite for_range_cons. unfold GetMulti_body at 1. cbn [shard_results].
    destruct ks as [|k0 ks].
    + rewrite !decide_False by (cbn; lia). rewrite filter_cons_False by (cbn; lia).
      unfold mret, M_ret, ret. cbn beta iota.
      destruct (IH acc w (Datatypes.S i)) as (Hlen & w' & evs & Heq).
      rewrite Heq. split; [done|]. by eexists _, _.
    + rewrite !decide_True by (cbn; lia). rewrite filter_cons_True by (cbn; lia).
      unfold mbind, M_bind. rewrite bind_run.
      destruct (getMulti_run c k0 ks w) as (t & e & w1 & evs1 & Hrun & _).
      cbn zeta in Hrun. rewrite Hrun. unfold mret, M_ret, ret. cbn beta iota.
      destruct (IH (merge_shard (merged (multi_replies evs1), t, e) acc) w1 (Datatypes.S i))
        as (Hlen & w' & evs & Heq).
      rewrite Heq. split; [cbn; by rewrite Hlen|]. by eexists _, _.
Qed.

(** [GetMulti], its shard tasks taken one after the other, never panics:
    every non-empty group of the partition is run, and the empty ones
    are skipped.  The map returned is the union of the maps of the shards
    that ended without an error, the targets are those shards' target
    lists, each repeated once per key of its map, and the error is that
    of the last shard that failed: a failed shard makes the whole call
    report an error, next to the entries of the shards that succeeded. *)
Theorem GetMulti_merges_shards c keys w :
  let gs := (DivideKeysByBucket keys w).1 in
  let ress := shard_results Addr c gs (DivideKeysByBucket keys w).2 in
  length ress = length (filter (λ ks, (0 < length ks)%nat) gs) ∧
  ∃ w' evs,
    GetMulti Addr c keys w =
    (Returned (foldl shard_entries ∅ ress, flat_map shard_targets ress,
               last (omap shard_error ress)), w', evs).
Proof.
  intros gs ress. subst gs ress. unfold GetMulti.
  destruct (DivideKeysByBucket keys w) as [gs w0]. cbn [fst snd].
  destruct (GetMulti_loop c gs (∅, [], None) w0 0) as (Hlen & w' & evs & Hloop).
  split; [done|]. unfold mbind, M_bind. rewrite bind_run, Hloop. cbn [ended].
  rewrite merge_shards_closed. cbn. rewrite app_nil_r.
  eexists _, _. by destruct (last _).
Qed.

(** When the scheduler's partition holds no key (no group, or only empty
    groups), [GetMulti] contacts no backend and returns an empty map, no
    target and a nil error. *)
Theorem GetMulti_without_keys c keys w :
  Forall (λ ks, ks = []) (DivideKeysByBucket keys w).1 →
  GetMulti Addr c keys w = (Returned (∅, [], None), (DivideKeysByBucket keys w).2, []).
Proof.
  unfold GetMulti. destruct (DivideKeysByBucket keys w) as [gs w0]. cbn [fst snd].
  intros Hall. unfold mbind, M_bind. rewrite bind_run.
  assert (Hloop : ∀ i, for_range (GetMulti_body Addr c) i gs (∅, [], None) w0 =
                       (Returned (inl (∅, [], None)), w0, [])).
  { induction Hall as [|ks gs -> _ IH]; intros i; [done|].
    rewrite for_range_cons. unfold GetMulti_body at 1.
    rewrite decide_False by (cbn; lia). unfold mret, M_ret, ret. cbn beta iota.
    by rewrite IH. }
  by rewrite Hloop.
Qed.
End Proofs.

(** * The client against scripted backends *)

(** With N = 3, W = 2, R = 2 and the ranking A, B, C, where A fails and B
    holds the value, [Get] returns B's value with B as the only target. *)
Lemma Get_serves_first_found_witness :
  get_replies (calls (Scripted.run_Get Scripted.faulty (NewClient 3 2 2) "k"))
    !! 1%nat = Some ("B", Some 42, None) ∧
  outcome (Scripted.run_Get Scripted.faulty (NewClient 3 2 2) "k") =
    Returned (Some 42, ["B"], None).
Proof.
  split; [reflexivity|].
  apply (proj2 (Get_serves_first_found (λ h, h) (sch := Scripted.scheduler _)
                  (be := Scripted.backend _) (NewClient 3 2 2) "k" 0) 1%nat "B" 42).
  reflexivity.
Defined.

(** With the same tunables and three backends that all miss, the walk of
    [Get] does not stop before the third backend. *)
Lemma Get_unserved_outcome_witness :
  Forall (λ rep, reply_val rep = None)
    (get_replies (calls (Scripted.run_Get Scripted.idle (NewClient 3 2 2) "k"))) ∧
  never_before (miss_quorum (NewClient 3 2 2))
    (get_replies (calls (Scripted.run_Get Scripted.idle (NewClient 3 2 2) "k"))).
Proof.
  assert (Hall : Forall (λ rep : string * option Z * option string, reply_val rep = None)
    (get_replies (calls (Scripted.run_Get Scripted.idle (NewClient 3 2 2) "k")))).
  { vm_compute. repeat constructor. }
  split; [exact Hall|].
  exact (proj1 (Get_unserved_outcome (λ h, h) (sch := Scripted.scheduler _)
                  (be := Scripted.backend _) (NewClient 3 2 2) "k" 0 Hall)).
Defined.

(** C2.  With N = 3, W = 2, R = 2 and the ranking A, B, C, where the reads
    of A and B fail and C answers a miss, no backend returned a value and
    only one answered without an error: [cnt] is 1 at the end of the walk,
    below R, and the test [cnt >= c.R && i+1 >= c.N] never held.  [Get]
    leaves through the exit below the loop with the value and the error
    of the last call: a nil value and a nil error, with an empty target
    list. *)
Theorem Get_miss_without_read_quorum :
  let c := NewClient 3 2 2 in
  let run := Scripted.run_Get Scripted.last_alive c "k" in
  let reps := get_replies (calls run) in
  reps = [("A", None, Some "timeout"); ("B", None, Some "timeout");
          ("C", None, None)] ∧
  Forall (λ rep, reply_val rep = None) reps ∧
  answered reps = 1 ∧ R c = 2 ∧ N c = 3 ∧
  ¬ miss_quorum c reps ∧
  outcome run = Returned (None, [], None).
Proof.
  cbn zeta.
  assert (Hreps : get_replies
            (calls (Scripted.run_Get Scripted.last_alive (NewClient 3 2 2) "k")) =
          [("A", None, Some "timeout"); ("B", None, Some "timeout");
           ("C", None, None)]) by reflexivity.
  rewrite Hreps. split_and!; try reflexivity.
  - repeat constructor.
  - intros [Hr _]. vm_compute in Hr. by apply Hr.
Qed.

(** C3.  With N = 2, R = 1 and a ranking of two backends that both miss,
    the miss branch of [Get] is reached after the second backend and
    slices [hosts[:3]] out of a two-element ranking: the call panics. *)
Theorem Get_panics_on_short_ranking :
  outcome (Scripted.run_Get Scripted.two_hosts (NewClient 2 1 1) "k") = Panicked.
Proof. reflexivity. Qed.

(** [getMulti] on an empty batch panics on [keys[0]]; [GetMulti] only
    starts it on non-empty shards. *)
Lemma getMulti_empty_batch_panics :
  outcome (Scripted.run_getMulti Scripted.idle (NewClient 1 1 1) []) = Panicked.
Proof. reflexivity. Qed.

(** C4, as stated, fails: with N = 1 and three backends that hold nothing,
    the number of backends attempted reaches N after the first one, and
    [Delete] still goes on to the second and the third. *)
Lemma Delete_attempt_floor_counterexample :
  length (delete_replies
            (calls (Scripted.run_Delete Scripted.idle (NewClient 1 1 1) "k"))) = 3%nat ∧
  ¬ stops_at (attempts_stop (NewClient 1 1 1))
      (length (Scripted.ranking Scripted.idle "k"))
      (delete_replies (calls (Scripted.run_Delete Scripted.idle (NewClient 1 1 1) "k"))).
Proof.
  split; [reflexivity|]. intros [Hnb _].
  apply (Hnb [("A", false, None)]).
  - by exists [("B", false, None); ("C", false, None)].
  - done.
  - done.
  - unfold attempts_stop. cbn. lia.
Qed.

(** With N = 3 and the ranking A, B, C, where A and B fail and C confirms,
    two errors were counted and [Delete] still reports success. *)
Lemma Delete_success_rule_witness :
  tally failed
    (delete_replies
       (calls (Scripted.run_Delete Scripted.faulty (NewClient 3 2 2) "k"))) = 2 ∧
  ∃ targets,
    outcome (Scripted.run_Delete Scripted.faulty (NewClient 3 2 2) "k") =
      Returned (true, targets, None).
Proof.
  split; [reflexivity|].
  destruct (proj1 (Delete_success_rule (λ h, h) (sch := Scripted.scheduler Scripted.faulty)
                     (be := Scripted.backend Scripted.faulty) (NewClient 3 2 2) "k" 0))
    as (r & targets & err & Hout & _ & Hiff & _).
  destruct (proj1 Hiff) as [-> ->]; [left; vm_compute; reflexivity|].
  by exists targets.
Defined.

(** With N = 2, W = 2 and the ranking A, B, C, where A acknowledges, B
    replies not-ok and C acknowledges, [Set] stops after C and reports
    success with the targets A and C. *)
Lemma Set_write_quorum_witness :
  W (NewClient 2 2 2) ≤
    tally acked (set_replies
                   (calls (Scripted.run_Set Scripted.faulty (NewClient 2 2 2) "k" (Some 7)))) ∧
  outcome (Scripted.run_Set Scripted.faulty (NewClient 2 2 2) "k" (Some 7)) =
    Returned (true, ["A"; "C"], None).
Proof.
  assert (Hw : W (NewClient 2 2 2) ≤
    tally acked (set_replies
                   (calls (Scripted.run_Set Scripted.faulty (NewClient 2 2 2) "k" (Some 7))))).
  { by vm_compute. }
  split; [exact Hw|].
  destruct (Set_write_quorum (λ h, h) (λ msg, msg) (sch := Scripted.scheduler Scripted.faulty)
              (be := Scripted.backend Scripted.faulty) (NewClient 2 2 2) "k" (Some 7) false 0)
    as (_ & _ & _ & ok & targets & err & Hout & Htg & _ & Hiff).
  destruct (proj1 Hiff Hw) as [-> ->]. unfold Scripted.run_Set. rewrite Hout, Htg.
  reflexivity.
Defined.

(** The same backends under [Append]: it reports success as [Set] does. *)
Lemma Append_sends_no_feedback_witness :
  W (NewClient 2 2 2) ≤
    tally acked (append_replies
                   (calls (Scripted.run_Append Scripted.faulty (NewClient 2 2 2) "k" []))) ∧
  outcome (Scripted.run_Append Scripted.faulty (NewClient 2 2 2) "k" []) =
    Returned (true, ["A"; "C"], None).
Proof.
  assert (Hw : W (NewClient 2 2 2) ≤
    tally acked (append_replies
                   (calls (Scripted.run_Append Scripted.faulty (NewClient 2 2 2) "k" [])))).
  { by vm_compute. }
  split; [exact Hw|].
  destruct (Append_sends_no_feedback (λ h, h) (λ msg, msg)
              (sch := Scripted.scheduler Scripted.faulty)
              (be := Scripted.backend Scripted.faulty) (NewClient 2 2 2) "k" [] 0)
    as (_ & _ & _ & _ & ok & targets & err & Hout & Htg & _ & Hiff).
  destruct (proj1 Hiff Hw) as [-> ->]. unfold Scripted.run_Append. rewrite Hout, Htg.
  reflexivity.
Defined.

(** With N = 3, W = 2 and the ranking A, B, C, where A fails, B returns 5
    and C returns 0, a single backend counts as a success, fewer than W,
    and [Incr] still returns 5 with a nil error. *)
Lemma Incr_returns_maximum_witness :
  tally positive
    (incr_replies (calls (Scripted.run_Incr Scripted.faulty (NewClient 3 2 2) "k" 1))) = 1 ∧
  ∃ targets,
    outcome (Scripted.run_Incr Scripted.faulty (NewClient 3 2 2) "k" 1) =
      Returned (5, targets, None).
Proof.
  split; [reflexivity|].
  destruct (Incr_returns_maximum (λ h, h) (sch := Scripted.scheduler Scripted.faulty)
              (be := Scripted.backend Scripted.faulty) (NewClient 3 2 2) "k" 1 0)
    as (_ & _ & _ & result & targets & err & Hout & Hres & _ & _ & _ & _ & Herr & _).
  assert (Hfive : result = 5) by (rewrite Hres; reflexivity).
  subst result. rewrite (Herr ltac:(rewrite Hfive; lia)) in Hout. rewrite Hfive in Hout.
  by exists targets.
Defined.

(** With N = 1, R = 1 and the keys a and b, of which the first backend
    holds only a, [getMulti] stops after that backend with a partial
    result, an empty target list and a nil error. *)
Lemma getMulti_partial_quorum_witness :
  let reps :=
    multi_replies (calls (Scripted.run_getMulti Scripted.faulty (NewClient 1 1 1) ["a"; "b"])) in
  (reps ≠ [] ∧ multi_quorum (NewClient 1 1 1) reps ∧ size (merged reps) ≠ 2%nat) ∧
  ∃ rs,
    outcome (Scripted.run_getMulti Scripted.faulty (NewClient 1 1 1) ["a"; "b"]) =
      Returned (rs, [], None).
Proof.
  intros reps.
  assert (Hhyp : reps ≠ [] ∧ multi_quorum (NewClient 1 1 1) reps ∧
                 size (merged reps) ≠ 2%nat).
  { split; [by vm_compute|]. split; [by vm_compute | by vm_compute]. }
  split; [exact Hhyp|]. destruct Hhyp as (Hne & Hq & Hsz).
  destruct (getMulti_partial_quorum (λ h, h) (sch := Scripted.scheduler Scripted.faulty)
              (be := Scripted.backend Scripted.faulty) (NewClient 1 1 1) "a" ["b"] 0)
    as (rs & targets & err & Hout & Hrs & _ & _ & Hreset & _).
  destruct (Hreset Hne Hq ltac:(by rewrite Hrs)) as [-> ->].
  by exists rs.
Defined.

(** With N = 3 and only A and B ranked, a shard whose key neither backend
    holds contacted both, returns them as targets with an empty result
    map, and adds nothing to the merged targets. *)
Lemma GetMulti_merges_targets_per_key_witness :
  ∃ r t e w' evs acc',
    Scripted.run_getMulti Scripted.two_hosts (NewClient 3 1 1) ["k"] =
      (Returned (r, t, e), w', evs) ∧
    t = ["A"; "B"] ∧ size r = 0%nat ∧
    GetMulti_body (λ h, h) (sch := Scripted.scheduler Scripted.two_hosts)
      (be := Scripted.backend Scripted.two_hosts) (NewClient 3 1 1) 0 ["k"] (∅, [], None) 0 =
      (Returned (Next acc'), w', evs) ∧
    acc'.1.2 = [].
Proof.
  destruct (GetMulti_merges_targets_per_key (λ h, h)
              (sch := Scripted.scheduler Scripted.two_hosts)
              (be := Scripted.backend Scripted.two_hosts) (NewClient 3 1 1) 0%nat "k" []
              ∅ [] None 0)
    as (_ & _ & Hzero & r & t & e & w' & evs & Hget & Hbody).
  assert (Hshape :
    match outcome (Scripted.run_getMulti Scripted.two_hosts (NewClient 3 1 1) ["k"]) with
    | Returned (r, t, _) => t = ["A"; "B"] ∧ size r = 0%nat
    | Panicked => False
    end) by (by vm_compute).
  unfold Scripted.run_getMulti in Hshape. rewrite Hget in Hshape.
  destruct Hshape as [Ht Hr].
  exists r, t, e, w', evs, (merge_shard (r, t, e) (∅, [], None)).
  split; [exact Hget|]. split; [exact Ht|]. split; [exact Hr|]. split; [exact Hbody|].
  apply Hzero. by left.
Defined.

(** A shard that resolved the two keys a and b from the single backend A
    adds A to the merged targets twice. *)
Lemma GetMulti_repeats_address_per_key :
  (merge_shard ({["a" := Some 1; "b" := Some 2]}, ["A"], None)
               (∅ : gmap string (option Z), [], None : option string)).1.2 = ["A"; "A"].
Proof. by vm_compute. Qed.

(** * Further properties against scripted backends *)

(** Two ranked backends that both miss, with N = 2 and R = 1: the miss
    test holds after the second one and [Get] panics. *)
Lemma Get_panics_iff_witness :
  outcome (Scripted.run_Get Scripted.two_hosts (NewClient 2 1 1) "k") = Panicked.
Proof.
  apply (proj2 (Get_panics_iff (λ h, h) (sch := Scripted.scheduler Scripted.two_hosts)
                  (be := Scripted.backend Scripted.two_hosts) (NewClient 2 1 1) "k" 0)).
  split; [done|]. split; [|split; [by vm_compute | cbn; lia]].
  repeat constructor; by intros [[? [=]] _].
Defined.

(** With every backend down and N = 3, R = 2, [Get] walks the whole
    ranking and returns the error of the last backend. *)
Lemma Get_error_means_exhausted_witness :
  outcome (Scripted.run_Get Scripted.down (NewClient 3 2 2) "k") =
    Returned (None, [], Some "timeout") ∧
  map reply_host (get_replies (calls (Scripted.run_Get Scripted.down (NewClient 3 2 2) "k")))
    = ["A"; "B"; "C"].
Proof.
  split; [reflexivity|].
  exact (proj1 (proj2 (Get_error_means_exhausted (λ h, h)
                  (sch := Scripted.scheduler Scripted.down)
                  (be := Scripted.backend Scripted.down) (NewClient 3 2 2) "k" 0
                  None [] "timeout" eq_refl))).
Defined.

(** A fails and B holds 42: the value returned is the one B served. *)
Lemma Get_value_iff_served_witness :
  ∃ h, last (get_replies (calls (Scripted.run_Get Scripted.faulty (NewClient 3 2 2) "k")))
       = Some (h, Some 42, None) ∧ ["B"] = [h] ∧ (None : option string) = None.
Proof.
  apply (proj1 (Get_value_iff_served (λ h, h) (sch := Scripted.scheduler Scripted.faulty)
                  (be := Scripted.backend Scripted.faulty) (NewClient 3 2 2) "k" 0
                  (Some 42) ["B"] None 42
                  ltac:(repeat constructor; by intros ?) eq_refl)).
  reflexivity.
Defined.

(** With every backend down, [Get] records three reads and three fault
    feedbacks, and nothing else. *)
Lemma Get_unserved_feedback_witness :
  feedbacks (calls (Scripted.run_Get Scripted.down (NewClient 3 2 2) "k")) =
    [CallFeedback "A" "k" (Fixed (-10)) true; CallFeedback "B" "k" (Fixed (-10)) true;
     CallFeedback "C" "k" (Fixed (-10)) true].
Proof.
  unfold Scripted.run_Get.
  rewrite (proj2 (Get_unserved_feedback (λ h, h) (sch := Scripted.scheduler Scripted.down)
                    (be := Scripted.backend Scripted.down) (NewClient 3 2 2) "k" 0
                    ltac:(repeat constructor; by intros [_ ?]))).
  reflexivity.
Defined.

(** With N = 3, R = 3 and the keys a and b, of which only A holds a, the
    second backend is asked for b alone. *)
Lemma getMulti_asks_missing_keys_witness :
  multi_batches (calls (Scripted.run_getMulti Scripted.faulty (NewClient 3 3 3) ["a"; "b"]))
    !! 1%nat = Some ["b"] ∧
  ["b"] ≠ [].
Proof.
  assert (Hj : multi_batches
                 (calls (Scripted.run_getMulti Scripted.faulty (NewClient 3 3 3) ["a"; "b"]))
                 !! 1%nat = Some ["b"]) by reflexivity.
  split; [exact Hj|].
  exact (proj1 (proj2 (getMulti_asks_missing_keys (λ h, h)
                  (sch := Scripted.scheduler Scripted.faulty)
                  (be := Scripted.backend Scripted.faulty) (NewClient 3 3 3) "a" ["b"] 0
                  1%nat ["b"] Hj))).
Defined.

(** No key: the single group of the partition is empty and [GetMulti]
    contacts nobody. *)
Lemma GetMulti_without_keys_witness :
  calls (Scripted.run_GetMulti Scripted.idle (NewClient 3 2 2) []) = [].
Proof.
  unfold Scripted.run_GetMulti.
  rewrite (GetMulti_without_keys (λ h, h) (sch := Scripted.scheduler Scripted.idle)
             (be := Scripted.backend Scripted.idle) (NewClient 3 2 2) [] 0
             ltac:(by repeat constructor)).
  reflexivity.
Defined.

(** In the same run every backend answers within its batch, and the value
    returned for a is the one A returned. *)
Lemma getMulti_first_reply_wins_witness :
  ∃ rs targets err,
    outcome (Scripted.run_getMulti Scripted.faulty (NewClient 3 3 3) ["a"; "b"]) =
      Returned (rs, targets, err) ∧
    rs !! "a" = Some (Some 1) ∧ rs !! "b" = None.
Proof.
  assert (Hb : multi_batches
                 (calls (Scripted.run_getMulti Scripted.faulty (NewClient 3 3 3) ["a"; "b"]))
               = [["a"; "b"]; ["b"]; ["b"]]) by reflexivity.
  assert (Hr : multi_replies
                 (calls (Scripted.run_getMulti Scripted.faulty (NewClient 3 3 3) ["a"; "b"]))
               = [("A", {["a" := Some 1]}, None); ("B", ∅, None); ("C", ∅, None)])
    by reflexivity.
  assert (Hcon : Forall2 (λ batch (rep : string * gmap string (option Z) * option string),
                            ∀ k, is_Some (reply_val rep !! k) → k ∈ batch)
    (multi_batches
       (calls (Scripted.run_getMulti Scripted.faulty (NewClient 3 3 3) ["a"; "b"])))
    (multi_replies
       (calls (Scripted.run_getMulti Scripted.faulty (NewClient 3 3 3) ["a"; "b"])))).
  { rewrite Hb, Hr.
    constructor; [|constructor; [|constructor; [|constructor]]];
      intros k [v Hv]; cbn in Hv.
    - apply lookup_singleton_Some in Hv as [<- _]. by left.
    - by rewrite lookup_empty in Hv.
    - by rewrite lookup_empty in Hv. }
  destruct (getMulti_first_reply_wins (λ h, h) (sch := Scripted.scheduler Scripted.faulty)
              (be := Scripted.backend Scripted.faulty) (NewClient 3 3 3) "a" ["b"] 0 Hcon)
    as (rs & targets & err & Hout & Hfirst & _).
  exists rs, targets, err. split; [exact Hout|].
  unfold Scripted.run_getMulti in Hr. rewrite !Hfirst, Hr. split; reflexivity.
Defined.
End memcache.
